(** * pycoQC: run selection and windowed aggregation

    A shallow embedding of [src/pycoQC.py] (class [pycoQC]).  The file read
    by [pd.read_csv] is taken as the parsed table, one row per record with
    one optional cell per column ([None] is a missing value).  A DataFrame is
    the list of its rows in row order, a Series is the list of its
    (label, value) pairs in order, and a Python exception is a value of
    [exn] carried by [result].

    A floating point number (time, quality score, bin width) is the
    rational it denotes, and every floating point operation rounds its exact
    result to the nearest binary64 number ([float64]); infinities and
    overflow are not modelled.  An integer column holds int64 values and its
    sums wrap around ([wrap64]).  (pandas reads an integer column with a
    missing cell as float64 and keeps it so after [dropna]; its sums are
    then floating point sums, which are the int64 sums as long as they stay
    below [2 ^ 53].) *)

From Stdlib Require Import List ZArith QArith Qround Qpower Bool String Lia Lqa.
From Stdlib Require Import Permutation Sorted.
Import ListNotations.

Local Open Scope Z_scope.

(** ** Exceptions *)

(** The Python exceptions the modelled code paths can raise. *)
Inductive exn : Type :=
| IndexError          (* [index[0]] of an empty index *)
| KeyError            (* [.loc[key]] with an absent label *)
| NameError           (* an unbound name *)
| ValueError          (* [max()] of an empty sequence, [reshape], [int(nan)] *)
| OverflowError       (* [int(inf)] *)
| ZeroDivisionError.  (* division of Python numbers by zero *)

Inductive result (A : Type) : Type :=
| Ok (a : A)
| Raise (e : exn).

Arguments Ok {A} a.
Arguments Raise {A} e.

Definition bind {A B : Type} (m : result A) (k : A -> result B) : result B :=
  match m with
  | Ok a => k a
  | Raise e => Raise e
  end.

Notation "x <- m ;; k" := (bind m (fun x => k))
  (at level 61, m at next level, right associativity).

(** ** Records *)

(** One line of the summary file as [read_csv] parses it. *)
Record raw_row : Type := mk_raw_row {
  raw_read_id : option string;
  raw_run_id : option string;
  raw_channel : option Z;
  raw_start_time : option Q;
  raw_duration : option Q;
  raw_sequence_length_template : option Z;
  raw_mean_qscore_template : option Q;
  raw_num_events : option Z
}.

(** The columns of a row once [read_id] has become the index. *)
Record columns : Type := mk_columns {
  run_id : string;
  channel : Z;
  start_time : Q;
  duration : Q;
  sequence_length_template : Z;
  mean_qscore_template : Q;
  num_events : Z
}.

(** A row without missing values: its [read_id] and its other columns. *)
Record row : Type := mk_row {
  read_id : string;
  cols : columns
}.

(** A DataFrame indexed by [read_id]: labels may repeat, order is row order. *)
Definition frame : Type := list (string * columns).

(** The object built by [__init__]: [self.runid], [self.total_reads], [self.df]. *)
Record pycoQC : Type := mk_pycoQC {
  runid : string;
  total_reads : Z;
  df : frame
}.

(** ** pandas operations used by the constructor *)

(** [dropna] on one row: the row survives when no cell is missing. *)
Definition complete (r : raw_row) : option row :=
  match raw_read_id r, raw_run_id r, raw_channel r, raw_start_time r,
        raw_duration r, raw_sequence_length_template r,
        raw_mean_qscore_template r, raw_num_events r with
  | Some i, Some u, Some c, Some s, Some d, Some l, Some q, Some e =>
      Some (mk_row i (mk_columns u c s d l q e))
  | _, _, _, _, _, _, _, _ => None
  end.

(** [df.dropna(inplace=True)]: rows with a missing cell go, the others keep
    their order. *)
Fixpoint dropna (t : list raw_row) : list row :=
  match t with
  | [] => []
  | r :: t' =>
      match complete r with
      | Some r' => r' :: dropna t'
      | None => dropna t'
      end
  end.

(** The sort of [value_counts(sort=True)].  pandas puts the entries in
    order of decreasing count; the order it gives to entries with the same
    count is that of its sorting routine, which the source does not choose.
    A [count_order] is such a routine, and [sorts_by_count] is what the code
    can rely on: the entries are kept and the counts decrease. *)
Definition count_order (K : Type) : Type := list (K * Z) -> list (K * Z).

Definition sorts_by_count {K : Type} (order : count_order K) : Prop :=
  forall s, Permutation (order s) s /\
            StronglySorted (fun a b => snd b <= snd a) (order s).

Section ValueCounts.
Context {K : Type} (eqb : K -> K -> bool).

(** Number of occurrences of [k]. *)
Definition occurrences (k : K) (l : list K) : Z :=
  Z.of_nat (List.length (filter (eqb k) l)).

(** [Series.unique()]: the distinct values in order of first appearance. *)
Fixpoint unique (l : list K) : list K :=
  match l with
  | [] => []
  | x :: t => x :: filter (fun y => negb (eqb x y)) (unique t)
  end.

(** [value_counts(sort=False)]: each distinct value with its number of
    occurrences, in order of first appearance. *)
Definition value_counts_unsorted (l : list K) : list (K * Z) :=
  map (fun k => (k, occurrences k l)) (unique l).

(** [value_counts(sort=True)] under the sort [order]. *)
Definition value_counts (order : count_order K) (l : list K) : list (K * Z) :=
  order (value_counts_unsorted l).

(** [series.index[0]]. *)
Definition index0 {V : Type} (s : list (K * V)) : result K :=
  match s with
  | [] => Raise IndexError
  | (k, _) :: _ => Ok k
  end.

(** [series.loc[k]] on a Series with distinct labels. *)
Fixpoint loc {V : Type} (s : list (K * V)) (k : K) : result V :=
  match s with
  | [] => Raise KeyError
  | (k', v) :: s' => if eqb k' k then Ok v else loc s' k
  end.
End ValueCounts.

(** [df.set_index("read_id", inplace=True)]: [read_id] leaves the columns and
    labels the rows.  [verify_integrity] is pandas' parameter, [False] when
    the caller does not pass it; only when it is set are repeated labels
    refused. *)
Fixpoint has_duplicates (l : list string) : bool :=
  match l with
  | [] => false
  | x :: t => existsb (String.eqb x) t || has_duplicates t
  end.

Definition set_index (verify_integrity : bool) (rows : list row) : result frame :=
  if verify_integrity && has_duplicates (map read_id rows)
  then Raise ValueError
  else Ok (map (fun r => (read_id r, cols r)) rows).

(** ** The constructor *)

(** The [runid] argument when Python takes it as true: [None] and the
    empty string are false, as [if not runid] tests. *)
Definition truthy_runid (arg : option string) : option string :=
  match arg with
  | None => None
  | Some s => if String.eqb s EmptyString then None else Some s
  end.

(** Rows of run [r]: [self.df[self.df["run_id"] == self.runid]]. *)
Definition of_run (r : string) (rows : list row) : list row :=
  filter (fun x => String.eqb (run_id (cols x)) r) rows.

(** The [run_id] column. *)
Definition run_ids (rows : list row) : list string :=
  map (fun x => run_id (cols x)) rows.

(** Lines 56-73: the run identifier and its number of reads. *)
Definition select_run (order : count_order string) (rows : list row) (arg : option string)
  : result (string * Z) :=
  let runid_counts := value_counts String.eqb order (run_ids rows) in
  match truthy_runid arg with
  | None =>
      r <- index0 runid_counts ;;
      n <- loc String.eqb runid_counts r ;;
      Ok (r, n)
  | Some r =>
      n <- loc String.eqb runid_counts r ;;
      Ok (r, n)
  end.

(** [pycoQC.__init__] from the parsed table (the output and display under
    [verbose] left out), with [order] the sort of [value_counts].
    [reset_index(drop=True)] renumbers the rows and leaves their order, which
    is the order of the list. *)
Definition __init__ (order : count_order string) (table : list raw_row) (arg : option string)
  : result pycoQC :=
  let rows := dropna table in
  sel <- select_run order rows arg ;;
  let '(r, n) := sel in
  d <- set_index false (of_run r rows) ;;
  Ok (mk_pycoQC r n d).

(** ** Module-level names *)

(** The methods [channels_activity] (levels "bases" and "events") and
    [output_over_time] read the name [n], which no parameter binds: Python
    looks it up in the module's globals.  [globals] is the binding of [n]
    there, if any. *)
Definition globals : Type := option pycoQC.

Definition lookup_n (g : globals) : result pycoQC :=
  match g with
  | Some n => Ok n
  | None => Raise NameError
  end.

(** ** Channel activity *)

(** A Series of integers labelled by channel. *)
Definition series : Type := list (Z * Z).

Definition sum_Z (l : list Z) : Z := fold_right Z.add 0 l.

(** An int64 result: the integer modulo [2 ^ 64] that lies between
    [- 2 ^ 63] and [2 ^ 63 - 1]. *)
Definition wrap64 (z : Z) : Z := (z + 2 ^ 63) mod 2 ^ 64 - 2 ^ 63.

(** The sum of an int64 column: every addition wraps around. *)
Definition sum_int64 (l : list Z) : Z :=
  fold_left (fun acc x => wrap64 (acc + x)) l 0.

Fixpoint insert_asc (x : Z * Z) (s : series) : series :=
  match s with
  | [] => [x]
  | y :: s' => if fst y <? fst x then y :: insert_asc x s' else x :: y :: s'
  end.

(** [s.sort_index()]: by increasing label. *)
Fixpoint sort_index (s : series) : series :=
  match s with
  | [] => []
  | x :: s' => insert_asc x (sort_index s')
  end.

(** [d.groupby("channel").aggregate(np.sum)[col]]: one entry per channel
    present, by increasing channel, with the int64 sum of the column. *)
Definition groupby_channel_sum (col : columns -> Z) (d : frame) : series :=
  sort_index
    (map (fun c => (c, sum_int64 (map (fun x => col (snd x))
                                      (filter (fun x => Z.eqb c (channel (snd x))) d))))
         (unique Z.eqb (map (fun x => channel (snd x)) d))).

(** [i in s.index]. *)
Definition has_label (i : Z) (s : series) : bool :=
  existsb (fun kv => Z.eqb (fst kv) i) s.

(** [range(a, b)]. *)
Definition py_range (a b : Z) : list Z :=
  map (fun i => a + Z.of_nat i) (seq 0 (Z.to_nat (b - a))).

(** Lines 120-122: every label of [labels] absent from the index is added
    with value 0 ([s.loc[i] = 0] appends a new label). *)
Definition fill_missing (labels : list Z) (s : series) : series :=
  fold_left (fun acc i => if has_label i acc then acc else acc ++ [(i, 0)]) labels s.

(** Rows of [c] values. *)
Fixpoint chunks (rows : nat) (c : nat) (v : list Z) : list (list Z) :=
  match rows with
  | O => []
  | S rows' => firstn c v :: chunks rows' c (skipn c v)
  end.

(** [values.reshape(r, c)]: refused unless there are [r * c] values. *)
Definition reshape (r c : nat) (v : list Z) : result (list (list Z)) :=
  if Nat.eqb (List.length v) (r * c) then Ok (chunks r c v) else Raise ValueError.

(** Lines 108-125: the Series [s] after the fill and the sort.  A level
    other than the three leaves [s] unbound. *)
Definition channels_activity_series (g : globals) (self : pycoQC) (level : string)
  : result series :=
  s <- (if String.eqb level "reads" then
          Ok (value_counts_unsorted Z.eqb (map (fun x => channel (snd x)) (df self)))
        else if String.eqb level "bases" then
          n <- lookup_n g ;;
          Ok (groupby_channel_sum sequence_length_template (df n))
        else if String.eqb level "events" then
          n <- lookup_n g ;;
          Ok (groupby_channel_sum num_events (df n))
        else Raise NameError) ;;
  Ok (sort_index (fill_missing (py_range 1 512) s)).

(** [channels_activity] up to the array handed to the heatmap. *)
Definition channels_activity (g : globals) (self : pycoQC) (level : string)
  : result (series * list (list Z)) :=
  s <- channels_activity_series g self level ;;
  a <- reshape 16 32 (map snd s) ;;
  Ok (s, a).

(** ** Binary floating point *)

(** [floor (log2 q)] for a positive [q]. *)
Definition Qlog2 (q : Q) : Z :=
  let e := Z.log2 (Qnum q) - Z.log2 (Zpos (Qden q)) in
  if Qle_bool (2 ^ e) q then e else e - 1.

(** The nearest integer, the even one when two are equally near. *)
Definition round_half_even (q : Q) : Z :=
  let f := Qfloor q in
  match (q - inject_Z f ?= 1 # 2)%Q with
  | Lt => f
  | Gt => f + 1
  | Eq => if Z.even f then f else f + 1
  end.

(** The nearest multiple of [2 ^ s]. *)
Definition round_to (s : Z) (q : Q) : Q :=
  (inject_Z (round_half_even (q * 2 ^ (- s))) * 2 ^ s)%Q.

(** The grid of binary64 around a positive [q]: 53 significant bits, and
    the multiples of [2 ^ -1074] below [2 ^ -1022]. *)
Definition scale (q : Q) : Z := Z.max (Qlog2 q - 52) (-1074).

(** The binary64 number nearest to [q] (round to nearest, ties to even). *)
Definition float64 (q : Q) : Q :=
  match (q ?= 0)%Q with
  | Eq => 0%Q
  | Gt => Qred (round_to (scale q) q)
  | Lt => Qred (- round_to (scale (- q)) (- q))
  end.

(** [q] is a binary64 number. *)
Definition is_binary64 (q : Q) : Prop := (float64 q == q)%Q.

(** ** numpy and builtins *)

Definition Qlt_bool (x y : Q) : bool := negb (Qle_bool y x).

Fixpoint max_from (x : Q) (l : list Q) : Q :=
  match l with
  | [] => x
  | y :: t => max_from (if Qlt_bool x y then y else x) t
  end.

Fixpoint min_from (x : Q) (l : list Q) : Q :=
  match l with
  | [] => x
  | y :: t => min_from (if Qlt_bool y x then y else x) t
  end.

(** The builtin [max] over a sequence. *)
Definition py_max (l : list Q) : result Q :=
  match l with
  | [] => Raise ValueError
  | x :: t => Ok (max_from x t)
  end.

(** [np.arange(start, stop, step)] on Python numbers.  The number of values
    is [ceil((stop - start) / step)], a division of Python numbers, which
    raises [ZeroDivisionError] on a zero step.  numpy stores [start] and
    [start + step] and fills the rest as [start + i * delta], where [delta]
    is the difference of the two stored values; each operation rounds.
    (With integer arguments numpy computes in int64: the values are the same
    as long as they are below [2 ^ 53].) *)
Definition arange_value (first next : Q) (i : nat) : Q :=
  match i with
  | O => first
  | S O => next
  | _ => float64 (first + float64 (inject_Z (Z.of_nat i) * float64 (next - first)))
  end.

Definition np_arange (start stop step : Q) : result (list Q) :=
  if Qeq_bool step 0 then Raise ZeroDivisionError
  else
    let len := Qceiling (float64 (float64 (stop - start) / step)) in
    Ok (map (arange_value (float64 start) (float64 (start + step)))
            (seq 0 (Z.to_nat len))).

(** ** Aggregation over time windows *)

(** [(start_time + duration) / 3600]: the end of a read in hours. *)
Definition end_time (x : string * columns) : Q :=
  float64 (float64 (start_time (snd x) + duration (snd x)) / 3600).

(** [(end_time >= t) & (end_time < t + win_size)]. *)
Definition in_window (t win_size e : Q) : bool :=
  Qle_bool t e && Qlt_bool e (float64 (t + win_size)).

(** The loop header and the selection shared by lines 193-194 and 226-227:
    for each [t] of [np.arange(0, max(end_time), win_size)] the rows [sdf]
    whose end falls in the window. *)
Definition time_windows (d : frame) (win_size : Q) : result (list (Q * frame)) :=
  m <- py_max (map end_time d) ;;
  ts <- np_arange 0 m win_size ;;
  Ok (map (fun t => (t, filter (fun x => in_window t win_size (end_time x)) d)) ts).

(** A row of [df2] in [output_over_time]. *)
Record output_row : Type := mk_output_row {
  reads : Z;
  bases : Z;
  events : Z
}.

(** Lines 188-195: the table [df2], computed from the frame of [n]. *)
Definition output_over_time_table (g : globals) (self : pycoQC) (win_size : Q)
  : result (list (Q * output_row)) :=
  n <- lookup_n g ;;
  ws <- time_windows (df n) win_size ;;
  Ok (map (fun w : Q * frame =>
             let sdf := snd w in
             (fst w,
              mk_output_row (Z.of_nat (List.length sdf))
                            (sum_int64 (map (fun x => sequence_length_template (snd x)) sdf))
                            (sum_int64 (map (fun x => num_events (snd x)) sdf))))
          ws).

(** [df2[level]]. *)
Definition output_column (level : string) : result (output_row -> Z) :=
  if String.eqb level "reads" then Ok reads
  else if String.eqb level "bases" then Ok bases
  else if String.eqb level "events" then Ok events
  else Raise KeyError.

(** [output_over_time] up to the Series that is plotted. *)
Definition output_over_time (g : globals) (self : pycoQC) (level : string) (win_size : Q)
  : result (list (Q * Z)) :=
  t <- output_over_time_table g self win_size ;;
  c <- output_column level ;;
  Ok (map (fun r => (fst r, c (snd r))) t).

Fixpoint insert_Q (x : Q) (s : list Q) : list Q :=
  match s with
  | [] => [x]
  | y :: s' => if Qlt_bool y x then y :: insert_Q x s' else x :: y :: s'
  end.

Fixpoint sort_Q (s : list Q) : list Q :=
  match s with
  | [] => []
  | x :: s' => insert_Q x (sort_Q s')
  end.

(** Reductions of a Series of floats; [None] is NaN, the value on an empty
    Series. *)

(** A floating point sum.  The values are added from left to right here;
    the order in which the library adds the values of a long Series is its
    own. *)
Definition float_sum (l : list Q) : Q :=
  fold_left (fun acc x => float64 (acc + x)) l 0%Q.

Definition series_mean (l : list Q) : option Q :=
  match l with
  | [] => None
  | _ => Some (float64 (float_sum l / inject_Z (Z.of_nat (List.length l))))
  end.

Definition series_min (l : list Q) : option Q :=
  match l with [] => None | x :: t => Some (min_from x t) end.

Definition series_max (l : list Q) : option Q :=
  match l with [] => None | x :: t => Some (max_from x t) end.

(** [Series.quantile(q)] with linear interpolation between the two nearest
    order statistics [a] and [b], at the fraction [t] of the way: numpy
    computes [a + (b - a) * t] below one half and [b - (b - a) * (1 - t)]
    from one half on. *)
Definition series_quantile (q : Q) (l : list Q) : option Q :=
  match sort_Q l with
  | [] => None
  | (x0 :: _) as s =>
      let pos := float64 (inject_Z (Z.of_nat (List.length s) - 1) * q) in
      let lo := Z.to_nat (Qfloor pos) in
      let a := nth lo s x0 in
      let b := nth (S lo) s a in
      let t := float64 (pos - inject_Z (Qfloor pos)) in
      let d := float64 (b - a) in
      Some (if Qle_bool (1 # 2) t
            then float64 (b - float64 (d * float64 (1 - t)))
            else float64 (a + float64 (d * t)))
  end.

Record quality_row : Type := mk_quality_row {
  q_mean : option Q;
  q_min : option Q;
  q_max : option Q;
  q_q1 : option Q;
  q_q3 : option Q
}.

(** Lines 221-228: the table [df2] of [quality_over_time]. *)
Definition quality_over_time (self : pycoQC) (win_size : Q)
  : result (list (Q * quality_row)) :=
  ws <- time_windows (df self) win_size ;;
  Ok (map (fun w : Q * frame =>
             let sdf := map (fun x => mean_qscore_template (snd x)) (snd w) in
             (fst w,
              mk_quality_row (series_mean sdf) (series_min sdf) (series_max sdf)
                             (series_quantile (1 # 4) sdf) (series_quantile (3 # 4) sdf)))
          ws).

(** ** Histograms *)

(** Bin edges: the values of [np.arange], or the powers of ten of
    [np.logspace], kept as their exponents (an edge [10 ** e] with a
    fractional [e] is not a rational). *)
Inductive bins : Type :=
| Linear (edges : list Q)
| Log10 (exponents : list Q).

(** The heights of the bars: the counts, or with [normed=True] the counts
    that [np.histogram] then divides by the sum of count times bin width
    (kept undivided: over logarithmic bins a width is not a rational). *)
Inductive heights : Type :=
| Counts (n : list Z)
| Normed (n : list Z).

Section Histogram.
(** Edges of type [E], compared with each other and with the values. *)
Context {E : Type}.
Variable edge_le : E -> E -> bool.       (* an edge is at most another *)
Variable edge_le_val : E -> Q -> bool.   (* an edge is at most a value *)
Variable val_le_edge : Q -> E -> bool.   (* a value is at most an edge *)

Definition count_if (f : Q -> bool) (a : list Q) : Z :=
  Z.of_nat (List.length (filter f a)).

(** [lo <= v < hi]. *)
Definition in_bin (lo hi : E) (v : Q) : bool :=
  edge_le_val lo v && negb (edge_le_val hi v).

(** [lo <= v <= hi]: the last bin includes its right edge. *)
Definition in_last_bin (lo hi : E) (v : Q) : bool :=
  edge_le_val lo v && val_le_edge v hi.

(** The counts of [np.histogram(a, bins)]: every bin is half-open but the
    last, which is closed. *)
Fixpoint bin_counts (a : list Q) (e : list E) : list Z :=
  match e with
  | lo :: ((hi :: rest) as e') =>
      match rest with
      | [] => [count_if (in_last_bin lo hi) a]
      | _ :: _ => count_if (in_bin lo hi) a :: bin_counts a e'
      end
  | _ => []
  end.

(** A value lies between the first and the last edge, both included; with
    fewer than two edges there is no bin to lie in. *)
Definition in_edge_range (e : list E) (v : Q) : bool :=
  match e with
  | lo :: ((_ :: _) as rest) => edge_le_val lo v && val_le_edge v (last rest lo)
  | _ => false
  end.

(** [np.diff(bins) < 0] nowhere. *)
Fixpoint monotone (e : list E) : bool :=
  match e with
  | x :: ((y :: _) as e') => edge_le x y && monotone e'
  | _ => true
  end.

(** [np.histogram(a, bins)] for a sequence of edges: decreasing edges are
    refused, and so is an empty sequence of edges as soon as there is a value
    to place. *)
Definition np_histogram (a : list Q) (e : list E) : result (list Z) :=
  if negb (monotone e) then Raise ValueError
  else
    match e, a with
    | [], _ :: _ => Raise ValueError
    | _, _ => Ok (bin_counts a e)
    end.
End Histogram.

(** Comparison of a positive value with a power of ten [10 ** (p / d)]:
    [10 ** (p / d) <= v] exactly when [10 ^ p <= v ^ d]. *)
Definition pow10_le_val (e v : Q) : bool :=
  Qlt_bool 0 v && Qle_bool (Qpower 10 (Qnum e)) (Qpower v (Zpos (Qden e))).

Definition val_le_pow10 (v e : Q) : bool :=
  Qle_bool v 0 || Qle_bool (Qpower v (Zpos (Qden e))) (Qpower 10 (Qnum e)).

(** [Series.plot.hist(bins=..., normed=...)] up to the heights of the bars. *)
Definition plot_hist (a : list Q) (b : bins) (normed : bool) : result heights :=
  n <- match b with
       | Linear e => np_histogram Qle_bool Qle_bool Qle_bool a e
       | Log10 x => np_histogram Qle_bool pow10_le_val val_le_pow10 a x
       end ;;
  Ok (if normed then Normed n else Counts n).

(** What a distribution plot shows: the edges, the heights and the limits
    of the x axis. *)
Record histogram : Type := mk_histogram {
  hist_bins : bins;
  hist_heights : heights;
  xlim : Q * Q
}.

(** [mean_qual_distribution]: the edges are [np.arange(0, 40, win_size)];
    [xmin] and [xmax] only set the limits of the axis. *)
Definition mean_qual_distribution (self : pycoQC) (normed : bool) (win_size xmin xmax : Q)
  : result histogram :=
  e <- np_arange 0 40 win_size ;;
  h <- plot_hist (map (fun x => mean_qscore_template (snd x)) (df self)) (Linear e) normed ;;
  Ok (mk_histogram (Linear e) h (xmin, xmax)).

(** ** Logarithmic edges *)

(** [floor(log10 n)] for an integer [n >= 1], by counting divisions by ten. *)
Fixpoint ilog10_fuel (fuel : nat) (n : Z) : Z :=
  match fuel with
  | O => 0
  | S fuel' => if n <? 10 then 0 else 1 + ilog10_fuel fuel' (n / 10)
  end.

Definition ilog10 (n : Z) : Z := ilog10_fuel (S (Z.to_nat (Z.log2 n))) n.

(** [int(np.log10(x))]: [np.log10] gives minus infinity at 0 and NaN below,
    which [int] refuses; otherwise [int] drops the fraction, towards zero. *)
Definition int_log10 (x : Q) : result Z :=
  if Qeq_bool x 0 then Raise OverflowError
  else if Qlt_bool x 0 then Raise ValueError
  else if Qle_bool 1 x then Ok (ilog10 (Qfloor x))
  else Ok (- ilog10 (Qfloor (/ x))).

(** [int(q)] on a finite float: towards zero. *)
Definition Qtrunc (q : Q) : Z := Z.quot (Qnum q) (Zpos (Qden q)).

(** [int(xmax / win_size)]: a division of Python numbers, rounded, then
    truncated. *)
Definition int_div (x y : Q) : result Z :=
  if Qeq_bool y 0 then Raise ZeroDivisionError
  else Ok (Qtrunc (float64 (x / y))).

(** [np.linspace(a, b, num, endpoint=True)]. *)
Definition np_linspace (a b : Q) (num : Z) : result (list Q) :=
  if num <? 0 then Raise ValueError
  else if num =? 1 then Ok [Qred a]
  else
    Ok (map (fun i => Qred (a + inject_Z (Z.of_nat i) * ((b - a) / inject_Z (num - 1))))
            (seq 0 (Z.to_nat num))).

(** Python's truth value of [xmax]: [None] and zero are false. *)
Definition truthy_xmax (xmax : option Q) : option Q :=
  match xmax with
  | None => None
  | Some x => if Qeq_bool x 0 then None else Some x
  end.

(** Lines 264-265. *)
Definition resolve_xmax (self : pycoQC) (xmax : option Q) : result Q :=
  match truthy_xmax xmax with
  | Some x => Ok x
  | None => py_max (map (fun x => inject_Z (sequence_length_template (snd x))) (df self))
  end.

(** Lines 267-270: the edges. *)
Definition reads_len_bins (win_size : Q) (xlog : bool) (xmin xmax : Q) : result bins :=
  if xlog then
    lo <- int_log10 xmin ;;
    hi <- int_log10 xmax ;;
    num <- int_div xmax win_size ;;
    x <- np_linspace (inject_Z lo) (inject_Z (hi + 1)) num ;;
    Ok (Log10 x)
  else
    e <- np_arange xmin xmax win_size ;;
    Ok (Linear e).

(** [reads_len_distribution] up to the histogram. *)
Definition reads_len_distribution (self : pycoQC) (win_size : Q) (normed xlog : bool)
    (xmin : Q) (xmax : option Q) : result histogram :=
  m <- resolve_xmax self xmax ;;
  b <- reads_len_bins win_size xlog xmin m ;;
  h <- plot_hist (map (fun x => inject_Z (sequence_length_template (snd x))) (df self))
                 b normed ;;
  Ok (mk_histogram b h (xmin, m)).

(** ** Import of the module *)

(** What the interpreter offers when the module is imported: the packages
    that can be imported and whether [get_ipython] is bound (it is inside
    IPython only). *)
Record environment : Type := mk_environment {
  has_numpy : bool;
  has_pylab : bool;
  has_pandas : bool;
  has_seaborn : bool;
  has_get_ipython : bool;
  has_ipython_display : bool
}.

(** Lines 16-26: the statements of the [try] block that can raise, each
    with the value of [current] when it runs and whether it succeeds. *)
Definition try_block (env : environment) : list (string * bool) :=
  [ ("Numpy 1.13.0"%string, has_numpy env);
    ("Matplotlib 2.0.2"%string, has_pylab env);
    ("Pandas 0.20.2"%string, has_pandas env);
    ("Seaborn 0.7.1"%string, has_seaborn env);
    ("Jupyter 4.2.0"%string, has_get_ipython env);
    ("Jupyter 4.2.0"%string, has_ipython_display env) ].

(** The value of [current] at the first statement that raises. *)
Fixpoint first_failure (b : list (string * bool)) : option string :=
  match b with
  | [] => None
  | (current, ok) :: b' => if ok then first_failure b' else Some current
  end.

(** Line 29: the line that is printed. *)
Definition import_message (current : string) : string :=
  String.append "The third party package "
    (String.append current
       "+ is required by picoQC. Please verify your dependencies").

(** Lines 15-30: what the import of the module prints and how it ends.  The
    [NameError] or [ImportError] of the block is caught; the handler prints
    and calls [sysexit], a name that nothing binds. *)
Definition import_module (env : environment) : list string * result unit :=
  match first_failure (try_block env) with
  | None => ([], Ok tt)
  | Some current => ([ import_message current ], Raise NameError)
  end.

(** * The vocabulary of the properties *)

(** Two sorts by decreasing count. *)

(** Insertion into a list sorted by decreasing count; an entry goes in
    front of the entries whose count is not larger than its own. *)
Fixpoint insert_desc {K : Type} (x : K * Z) (s : list (K * Z)) : list (K * Z) :=
  match s with
  | [] => [x]
  | y :: s' => if snd x <? snd y then y :: insert_desc x s' else x :: y :: s'
  end.

Fixpoint sort_desc {K : Type} (s : list (K * Z)) : list (K * Z) :=
  match s with
  | [] => []
  | x :: s' => insert_desc x (sort_desc s')
  end.

(** Entries with the same count stay in the order they come in, which for
    [value_counts] is the order of first appearance. *)
Definition first_seen_first {K : Type} : count_order K := sort_desc.

(** A sort that is not stable: the stable sort after the first two entries
    have changed places, so that of two leading entries with the same count
    the second comes first. *)
Definition second_seen_first {K : Type} : count_order K :=
  fun s =>
    match s with
    | a :: b :: t => sort_desc (b :: a :: t)
    | _ => sort_desc s
    end.

(** Example tables. *)

Definition example_row (i u : string) (c : Z) (s d : Q) (l : Z) (q : Q) (e : Z)
  : raw_row :=
  mk_raw_row (Some i) (Some u) (Some c) (Some s) (Some d) (Some l) (Some q) (Some e).

(** Ten reads of run "A" followed by thirty reads of run "B". *)
Definition table_A10_B30 : list raw_row :=
  repeat (example_row "a" "A" 1 0 1 100 10 5) 10 ++
  repeat (example_row "b" "B" 2 0 1 100 10 5) 30.

(** Seventeen runs with one read each, "R01" first. *)
Definition seventeen_runs : list string :=
  [ "R01"; "R02"; "R03"; "R04"; "R05"; "R06"; "R07"; "R08"; "R09"; "R10";
    "R11"; "R12"; "R13"; "R14"; "R15"; "R16"; "R17" ]%string.

Definition table_seventeen_runs : list raw_row :=
  map (fun u => example_row u u 1 0 1 100 10 5) seventeen_runs.

(** Two reads of one run with the same [read_id]. *)
Definition table_repeated_id : list raw_row :=
  [ example_row "r1" "A" 1 0 1 100 10 5; example_row "r1" "A" 2 5 1 200 11 7 ].

(** A read of run "A", then a line without channel, then a read of run "B". *)
Definition table_with_gap : list raw_row :=
  [ example_row "r1" "A" 1 0 1 100 10 5;
    mk_raw_row (Some "r2"%string) (Some "B"%string) None (Some 0%Q) (Some 1%Q)
               (Some 100) (Some 10%Q) (Some 5);
    example_row "r3" "B" 2 5 1 200 11 7 ].

(** Example RunTables. *)

(** One read, on channel 1, that starts at 0 and lasts 1800 seconds: it ends
    at half an hour exactly. *)
Definition run_half_hour : pycoQC :=
  mk_pycoQC "A" 1 [ ("r1"%string, mk_columns "A" 1 0 1800 4500 5 10) ].

(** Another object: one read on channel 7 that ends after 360 seconds. *)
Definition run_other : pycoQC :=
  mk_pycoQC "B" 1 [ ("r9"%string, mk_columns "B" 7 0 360 200 9 3) ].

(** A third: one read on channel 512, of 700 bases and 40 events. *)
Definition run_on_512 : pycoQC :=
  mk_pycoQC "C" 1 [ ("r5"%string, mk_columns "C" 512 0 900 700 8 40) ].

(** The two fields with a value-range aggregation. *)
Inductive field : Type := Length | Quality.

Definition field_values (f : field) (self : pycoQC) : list Q :=
  match f with
  | Length => map (fun x => inject_Z (sequence_length_template (snd x))) (df self)
  | Quality => map (fun x => mean_qscore_template (snd x)) (df self)
  end.

(** The value-range aggregation of a field with counts ([normed=False]);
    [xmax] left out is [None] for the lengths and 40 for the qualities, the
    defaults of the two methods.  Only the lengths have a logarithmic mode. *)
Definition distribution (f : field) (self : pycoQC) (win_size xmin : Q) (xmax : option Q)
    (xlog : bool) : result histogram :=
  match f with
  | Length => reads_len_distribution self win_size false xlog xmin xmax
  | Quality =>
      mean_qual_distribution self false win_size xmin
                             (match xmax with Some x => x | None => 40%Q end)
  end.


(** A value lies between the first and the last edge of the bins. *)
Definition in_bins_range (b : bins) (v : Q) : bool :=
  match b with
  | Linear e => in_edge_range Qle_bool Qle_bool e v
  | Log10 x => in_edge_range pow10_le_val val_le_pow10 x v
  end.

(** The counts of values [a] over the bins. *)
Definition counts_over (b : bins) (a : list Q) : list Z :=
  match b with
  | Linear e => bin_counts Qle_bool Qle_bool a e
  | Log10 x => bin_counts pow10_le_val val_le_pow10 a x
  end.


(** [lo <= v < hi]. *)
Definition in_bounds (lo hi v : Q) : bool := Qle_bool lo v && Qlt_bool v hi.





(** The sum of a column over the rows of a frame, and over its rows on one
    channel. *)
Definition column_total (col : columns -> Z) (d : frame) : Z :=
  sum_Z (map (fun x => col (snd x)) d).

Definition channel_total (col : columns -> Z) (d : frame) (c : Z) : Z :=
  column_total col (filter (fun x => Z.eqb c (channel (snd x))) d).

(** The channels of a frame. *)
Definition channels (d : frame) : list Z := map (fun x => channel (snd x)) d.

(** The start of window [i]: value [i] of [np.arange(0, ..., win_size)]. *)
Definition window_start (win_size : Q) (i : nat) : Q :=
  arange_value (float64 0) (float64 (0 + win_size)) i.

(** A row ends at or after 0 and before the end of the last of [n] windows. *)
Definition within_windows (n : nat) (win_size : Q) (x : string * columns) : bool :=
  Qle_bool 0 (end_time x) && Qlt_bool (end_time x) (inject_Z (Z.of_nat n) * win_size).

(** * Facts about the pandas models *)

Section ValueCountsFacts.
Context {K : Type} (eqb : K -> K -> bool).
Hypothesis eqb_eq : forall x y, eqb x y = true <-> x = y.

Lemma eqb_same (x : K) : eqb x x = true.
Proof. now apply eqb_eq. Qed.

Lemma eqb_false (x y : K) : eqb x y = false <-> x <> y.
Proof.
  split; intro H.
  - intro E. apply eqb_eq in E. congruence.
  - destruct (eqb x y) eqn:E; [ apply eqb_eq in E; contradiction | reflexivity ].
Qed.

Lemma in_dec_of (k : K) (l : list K) : In k l \/ ~ In k l.
Proof.
  induction l as [ | x t IH ]; simpl; [ tauto | ].
  destruct (eqb x k) eqn:E.
  - left. left. now apply eqb_eq.
  - apply eqb_false in E. tauto.
Qed.

Lemma occurrences_nonneg (k : K) (l : list K) : 0 <= occurrences eqb k l.
Proof. unfold occurrences. lia. Qed.

Lemma occurrences_absent (k : K) (l : list K) :
  ~ In k l -> occurrences eqb k l = 0.
Proof.
  intro H. unfold occurrences.
  replace (filter (eqb k) l) with (@nil K); [ reflexivity | ].
  symmetry. induction l as [ | x t IH ]; simpl; [ reflexivity | ].
  destruct (eqb k x) eqn:E.
  - apply eqb_eq in E. subst. exfalso. apply H. now left.
  - apply IH. intro Hin. apply H. now right.
Qed.

Lemma occurrences_present (k : K) (l : list K) :
  In k l -> 0 < occurrences eqb k l.
Proof.
  unfold occurrences. induction l as [ | x t IH ]; simpl; [ tauto | ].
  intros [ -> | Hin ].
  - rewrite eqb_same. simpl. lia.
  - destruct (eqb k x); simpl; [ lia | now apply IH ].
Qed.

Lemma unique_In (k : K) (l : list K) : In k (unique eqb l) <-> In k l.
Proof.
  induction l as [ | x t IH ]; simpl; [ tauto | ].
  rewrite filter_In, IH. split.
  - intros [ H | [ H _ ] ]; auto.
  - intros [ H | H ]; [ now left | ].
    destruct (eqb x k) eqn:E.
    + left. now apply eqb_eq.
    + right. split; [ assumption | simpl; rewrite ?E; reflexivity ].
Qed.

Lemma unique_NoDup (l : list K) : NoDup (unique eqb l).
Proof.
  induction l as [ | x t IH ]; simpl; constructor.
  - rewrite filter_In. intros [ _ H ]. simpl in H. now rewrite eqb_same in H.
  - now apply NoDup_filter.
Qed.

(** A position in a filtered list comes from a position in the list. *)
Lemma filter_split (f : K -> bool) (u a b : list K) (m : K) :
  filter f u = a ++ m :: b ->
  exists a' b', u = a' ++ m :: b' /\ filter f a' = a /\ filter f b' = b.
Proof.
  revert a. induction u as [ | x t IH ]; simpl; intros a H.
  - destruct a; discriminate.
  - destruct (f x) eqn:E.
    + destruct a as [ | y a ]; simpl in H; injection H as Hx H.
      * subst x. exists [], t. simpl. auto.
      * subst x. destruct (IH _ H) as (a' & b' & Ht & Ha & Hb).
        exists (y :: a'), b'. simpl. rewrite E, Ha, Ht. auto.
    + destruct (IH _ H) as (a' & b' & Ht & Ha & Hb).
      exists (x :: a'), b'. simpl. rewrite E, Ht. auto.
Qed.

(** The order of [unique] is the order of first appearance: whatever
    comes before the first [m] in the list comes before [m] in [unique]. *)
Lemma unique_first_appearance (l a b : list K) (m : K) :
  unique eqb l = a ++ m :: b ->
  exists l1 l2, l = l1 ++ m :: l2 /\ ~ In m l1 /\ forall z, In z l1 -> In z a.
Proof.
  revert a b. induction l as [ | x t IH ]; simpl; intros a b H.
  - destruct a; discriminate.
  - destruct a as [ | y a ]; simpl in H; injection H as Hx H; subst x.
    + exists [], t. simpl. tauto.
    + destruct (filter_split _ _ _ _ _ H) as (a' & b' & Hu & Ha & Hb).
      destruct (IH _ _ Hu) as (l1 & l2 & Ht & Hm & Hz).
      assert (Hym : y <> m).
      { intro. subst m.
        assert (Hin : In y (filter (fun y0 => negb (eqb y y0)) (unique eqb t))).
        { rewrite H. apply in_or_app. right. now left. }
        apply filter_In in Hin. destruct Hin as [ _ Hin ]. simpl in Hin.
        now rewrite eqb_same in Hin. }
      exists (y :: l1), l2. simpl. rewrite Ht. repeat split.
      * intros [ E | Hin ]; [ now apply Hym | now apply Hm ].
      * intros z [ <- | Hin ]; [ now left | ].
        destruct (eqb y z) eqn:E.
        -- left. now apply eqb_eq.
        -- right. rewrite <- Ha. apply filter_In.
           split; [ now apply Hz | simpl; rewrite ?E; reflexivity ].
Qed.

Lemma insert_desc_perm (x : K * Z) (s : list (K * Z)) :
  Permutation (insert_desc x s) (x :: s).
Proof.
  induction s as [ | y s IH ]; simpl; [ reflexivity | ].
  destruct (snd x <? snd y); [ | reflexivity ].
  rewrite IH. apply perm_swap.
Qed.

Lemma sort_desc_perm (s : list (K * Z)) : Permutation (sort_desc s) s.
Proof.
  induction s as [ | x s IH ]; simpl; [ reflexivity | ].
  rewrite insert_desc_perm. now constructor.
Qed.

Lemma loc_present {V : Type} (s : list (K * V)) (k : K) (v : V) :
  NoDup (map fst s) -> In (k, v) s -> loc eqb s k = Ok v.
Proof.
  induction s as [ | [ k' v' ] s IH ]; simpl; [ tauto | ].
  intros Hnd Hin. inversion Hnd as [ | ? ? Hk Hnd' ]; subst.
  destruct (eqb k' k) eqn:E.
  - apply eqb_eq in E. subst k'.
    destruct Hin as [ Heq | Hin ]; [ congruence | ].
    exfalso. apply Hk. now apply (in_map fst) in Hin.
  - destruct Hin as [ Heq | Hin ]; [ | now apply IH ].
    injection Heq as -> _. now rewrite eqb_same in E.
Qed.

Lemma loc_absent {V : Type} (s : list (K * V)) (k : K) :
  ~ In k (map fst s) -> loc eqb s k = Raise KeyError.
Proof.
  induction s as [ | [ k' v' ] s IH ]; simpl; [ reflexivity | ].
  intro H. destruct (eqb k' k) eqn:E.
  - apply eqb_eq in E. tauto.
  - apply IH. tauto.
Qed.

(** The head of a list sorted by [sort_desc]: a largest count, and the
    first entry of the list with that count. *)
Lemma sort_desc_head (s : list (K * Z)) :
  s <> [] ->
  exists m c rest a b,
    sort_desc s = (m, c) :: rest /\ s = a ++ (m, c) :: b /\
    (forall y, In y a -> snd y < c) /\ (forall y, In y b -> snd y <= c).
Proof.
  induction s as [ | x s IH ]; [ congruence | intros _ ].
  destruct s as [ | x' s' ].
  - destruct x as [ m c ]. exists m, c, [], [], []. simpl. tauto.
  - remember (x' :: s') as s0 eqn:Es0.
    destruct IH as (m & c & rest & a & b & Hs & Hd & Ha & Hb); [ subst; discriminate | ].
    simpl. rewrite Hs. simpl. destruct (snd x <? c) eqn:E.
    + apply Z.ltb_lt in E.
      exists m, c, (insert_desc x rest), (x :: a), b.
      split; [ reflexivity | ]. split; [ rewrite Hd; reflexivity | ].
      split; [ | assumption ].
      intros y [ <- | Hy ]; [ assumption | now apply Ha ].
    + apply Z.ltb_ge in E. destruct x as [ mx cx ]. simpl in E.
      exists mx, cx, ((m, c) :: rest), [], s0.
      split; [ reflexivity | ]. split; [ reflexivity | ].
      split; [ intros y [] | ].
      intros y Hy. rewrite Hd in Hy. apply in_app_or in Hy.
      destruct Hy as [ Hy | [ <- | Hy ] ].
      * apply Ha in Hy. lia.
      * simpl. lia.
      * apply Hb in Hy. lia.
Qed.

Lemma value_counts_unsorted_keys (l : list K) :
  map fst (value_counts_unsorted eqb l) = unique eqb l.
Proof.
  unfold value_counts_unsorted. rewrite map_map. simpl. apply map_id.
Qed.

Lemma value_counts_unsorted_In (l : list K) (k : K) (c : Z) :
  In (k, c) (value_counts_unsorted eqb l) <-> In k l /\ c = occurrences eqb k l.
Proof.
  unfold value_counts_unsorted. rewrite in_map_iff. split.
  - intros (k' & E & Hin). injection E as -> <-. now rewrite unique_In in Hin.
  - intros [ Hin -> ]. exists k. now rewrite unique_In.
Qed.

Lemma insert_desc_sorted (x : K * Z) (s : list (K * Z)) :
  StronglySorted (fun a b => snd b <= snd a) s ->
  StronglySorted (fun a b => snd b <= snd a) (insert_desc x s).
Proof.
  induction 1 as [ | y s Hs IH Hy ]; simpl.
  - repeat constructor.
  - destruct (snd x <? snd y) eqn:E.
    + apply Z.ltb_lt in E. constructor; [ exact IH | ].
      rewrite Forall_forall in *. intros z Hz.
      apply (Permutation_in _ (insert_desc_perm x s)) in Hz.
      destruct Hz as [ <- | Hz ]; [ lia | now apply Hy ].
    + apply Z.ltb_ge in E. constructor; [ now constructor | ].
      constructor; [ exact E | ].
      rewrite Forall_forall in *. intros z Hz. specialize (Hy z Hz). lia.
Qed.

Lemma sort_desc_sorted (s : list (K * Z)) :
  StronglySorted (fun a b => snd b <= snd a) (sort_desc s).
Proof.
  induction s as [ | x s IH ]; simpl; [ constructor | now apply insert_desc_sorted ].
Qed.

(** The two example sorts are sorts by decreasing count. *)
Lemma first_seen_first_sorts : sorts_by_count (@first_seen_first K).
Proof. intro s. split; [ apply sort_desc_perm | apply sort_desc_sorted ]. Qed.

Lemma second_seen_first_sorts : sorts_by_count (@second_seen_first K).
Proof.
  intro s. unfold second_seen_first.
  destruct s as [ | a [ | b t ] ]; (split; [ | apply sort_desc_sorted ]).
  - apply sort_desc_perm.
  - apply sort_desc_perm.
  - rewrite sort_desc_perm. apply perm_swap.
Qed.

(** [value_counts(...).index[0]] under the stable sort: the value with the
    largest number of occurrences that appears first. *)
Lemma index0_first_seen_first (l : list K) :
  l <> [] ->
  exists m l1 l2,
    index0 (value_counts eqb first_seen_first l) = Ok m /\
    l = l1 ++ m :: l2 /\ ~ In m l1 /\
    (forall z, In z l1 -> occurrences eqb z l < occurrences eqb m l) /\
    (forall z, occurrences eqb z l <= occurrences eqb m l).
Proof.
  intro Hne.
  destruct (sort_desc_head (value_counts_unsorted eqb l))
    as (m & c & rest & a & b & Hs & Hd & Ha & Hb).
  { destruct l; [ congruence | discriminate ]. }
  assert (Hmc : In (m, c) (value_counts_unsorted eqb l)).
  { rewrite Hd. apply in_or_app. right. now left. }
  apply value_counts_unsorted_In in Hmc. destruct Hmc as [ Hm -> ].
  assert (Hu : unique eqb l = map fst a ++ m :: map fst b).
  { rewrite <- value_counts_unsorted_keys, Hd, map_app. reflexivity. }
  destruct (unique_first_appearance _ _ _ _ Hu) as (l1 & l2 & Hl & Hm1 & Hz).
  exists m, l1, l2. repeat split; auto.
  - unfold value_counts, first_seen_first. now rewrite Hs.
  - intros z Hin. apply Hz in Hin. apply in_map_iff in Hin.
    destruct Hin as ([ z' c' ] & E & Hin). simpl in E. subst z'.
    assert (Hin' : In (z, c') (value_counts_unsorted eqb l)).
    { rewrite Hd. apply in_or_app. now left. }
    apply value_counts_unsorted_In in Hin'. destruct Hin' as [ _ -> ].
    apply (Ha _ Hin).
  - intro z. destruct (in_dec_of z l) as [ Hin | Hout ].
    + assert (Hin' : In (z, occurrences eqb z l) (value_counts_unsorted eqb l)).
      { now apply value_counts_unsorted_In. }
      rewrite Hd in Hin'. apply in_app_or in Hin'.
      destruct Hin' as [ Hin' | [ E | Hin' ] ].
      * apply Ha in Hin'. simpl in Hin'. lia.
      * injection E as _ E. lia.
      * apply Hb in Hin'. simpl in Hin'. lia.
    + rewrite (occurrences_absent z l Hout). apply occurrences_nonneg.
Qed.

(** Under any sort by decreasing count. *)
Variable order : count_order K.
Hypothesis order_sorts : sorts_by_count order.

Lemma value_counts_perm (l : list K) :
  Permutation (value_counts eqb order l) (value_counts_unsorted eqb l).
Proof. unfold value_counts. apply order_sorts. Qed.

Lemma value_counts_NoDup (l : list K) : NoDup (map fst (value_counts eqb order l)).
Proof.
  apply (Permutation_NoDup (l := map fst (value_counts_unsorted eqb l))).
  - apply Permutation_map. symmetry. apply value_counts_perm.
  - rewrite value_counts_unsorted_keys. apply unique_NoDup.
Qed.

(** [value_counts(...).loc[k]] is the number of occurrences of a value
    that occurs, and a [KeyError] otherwise. *)
Lemma loc_value_counts_present (l : list K) (k : K) :
  In k l -> loc eqb (value_counts eqb order l) k = Ok (occurrences eqb k l).
Proof.
  intro H. apply loc_present; [ apply value_counts_NoDup | ].
  apply (Permutation_in _ (Permutation_sym (value_counts_perm l))).
  now apply value_counts_unsorted_In.
Qed.

Lemma loc_value_counts_absent (l : list K) (k : K) :
  ~ In k l -> loc eqb (value_counts eqb order l) k = Raise KeyError.
Proof.
  intro H. apply loc_absent. intro Hin. apply H.
  apply unique_In. rewrite <- value_counts_unsorted_keys.
  revert Hin. apply Permutation_in. apply Permutation_map. apply value_counts_perm.
Qed.

Lemma value_counts_empty : value_counts eqb order [] = [].
Proof.
  apply Permutation_nil. symmetry. apply (value_counts_perm []).
Qed.

(** [value_counts(...).index[0]]: a value with the largest number of
    occurrences. *)
Lemma index0_value_counts (l : list K) :
  l <> [] ->
  exists m,
    index0 (value_counts eqb order l) = Ok m /\ In m l /\
    (forall z, occurrences eqb z l <= occurrences eqb m l).
Proof.
  intro Hne. pose proof (value_counts_perm l) as Hp.
  destruct (order_sorts (value_counts_unsorted eqb l)) as [ _ Hs ].
  fold (value_counts eqb order l) in Hs.
  destruct (value_counts eqb order l) as [ | [ m c ] rest ].
  - apply Permutation_nil in Hp. destruct l; [ congruence | discriminate ].
  - assert (Hmc : In (m, c) (value_counts_unsorted eqb l)).
    { apply (Permutation_in _ Hp). now left. }
    apply value_counts_unsorted_In in Hmc. destruct Hmc as [ Hm -> ].
    exists m. split; [ reflexivity | ]. split; [ exact Hm | ].
    inversion Hs as [ | ? ? _ Hall ]; subst. rewrite Forall_forall in Hall.
    intro z. destruct (in_dec_of z l) as [ Hin | Hout ].
    + assert (Hin' : In (z, occurrences eqb z l) ((m, occurrences eqb m l) :: rest)).
      { apply (Permutation_in _ (Permutation_sym Hp)). now apply value_counts_unsorted_In. }
      destruct Hin' as [ E | Hin' ].
      * injection E as _ E. lia.
      * apply (Hall _ Hin').
    + rewrite (occurrences_absent z l Hout). apply occurrences_nonneg.
Qed.
End ValueCountsFacts.

(** * The constructor *)


Lemma dropna_app (t1 t2 : list raw_row) : dropna (t1 ++ t2) = dropna t1 ++ dropna t2.
Proof.
  induction t1 as [ | x t1 IH ]; simpl; [ reflexivity | ].
  destruct (complete x); simpl; now rewrite IH.
Qed.

(** The number of rows of a run is the count of its [run_id]. *)
Lemma of_run_length (r : string) (rows : list row) :
  Z.of_nat (List.length (of_run r rows)) = occurrences String.eqb r (run_ids rows).
Proof.
  unfold occurrences, of_run, run_ids. f_equal.
  induction rows as [ | x rows IH ]; simpl; [ reflexivity | ].
  rewrite (String.eqb_sym r). destruct (String.eqb (run_id (cols x)) r); simpl; now rewrite IH.
Qed.

Lemma of_run_app (r : string) (a b : list row) :
  of_run r (a ++ b) = of_run r a ++ of_run r b.
Proof. unfold of_run. apply filter_app. Qed.

Lemma run_ids_In (r : string) (rows : list row) :
  In r (run_ids rows) <-> of_run r rows <> [].
Proof.
  unfold run_ids, of_run. induction rows as [ | x rows IH ]; simpl.
  - split; [ tauto | congruence ].
  - destruct (String.eqb (run_id (cols x)) r) eqn:E.
    + apply String.eqb_eq in E. split; [ discriminate | now left ].
    + apply String.eqb_neq in E. rewrite <- IH. tauto.
Qed.

Lemma truthy_runid_Some (r : string) : r <> EmptyString -> truthy_runid (Some r) = Some r.
Proof.
  intro H. unfold truthy_runid. destruct (String.eqb r EmptyString) eqn:E; [ | reflexivity ].
  apply String.eqb_eq in E. contradiction.
Qed.

(** [__init__] succeeds exactly when the run selection does, and then
    holds the rows of the selected run. *)
Lemma init_unfold (order : count_order string) (table : list raw_row) (arg : option string) :
  __init__ order table arg =
    match select_run order (dropna table) arg with
    | Ok (r, n) =>
        Ok (mk_pycoQC r n (map (fun x => (read_id x, cols x)) (of_run r (dropna table))))
    | Raise e => Raise e
    end.
Proof.
  unfold __init__. destruct (select_run order (dropna table) arg) as [ [ r n ] | e ];
    reflexivity.
Qed.

(** An empty string as [runid] is false for [if not runid]: construction
    proceeds as with no identifier. *)
Lemma empty_runid_is_default (order : count_order string) (table : list raw_row) :
  __init__ order table (Some EmptyString) = __init__ order table None.
Proof. reflexivity. Qed.

Section RunSelection.
Variable order : count_order string.
Hypothesis order_sorts : sorts_by_count order.

Lemma select_run_default (rows : list row) (arg : option string) :
  truthy_runid arg = None -> rows <> [] ->
  exists r,
    select_run order rows arg = Ok (r, occurrences String.eqb r (run_ids rows)) /\
    In r (run_ids rows) /\
    (forall z, occurrences String.eqb z (run_ids rows)
               <= occurrences String.eqb r (run_ids rows)).
Proof.
  intros Harg Hne. unfold select_run. rewrite Harg.
  destruct (index0_value_counts String.eqb String.eqb_eq order order_sorts (run_ids rows))
    as (m & Hi & Hm & Hle).
  { destruct rows; [ congruence | discriminate ]. }
  exists m. rewrite Hi. cbn [bind].
  rewrite (loc_value_counts_present String.eqb String.eqb_eq order order_sorts _ _ Hm).
  cbn [bind]. auto.
Qed.

Lemma select_run_empty (arg : option string) :
  truthy_runid arg = None -> select_run order [] arg = Raise IndexError.
Proof.
  intro H. unfold select_run. rewrite H. cbn [run_ids map].
  now rewrite (value_counts_empty String.eqb order order_sorts).
Qed.

Lemma select_run_given (rows : list row) (arg : option string) (r : string) :
  truthy_runid arg = Some r ->
  select_run order rows arg =
    if in_dec string_dec r (run_ids rows)
    then Ok (r, occurrences String.eqb r (run_ids rows))
    else Raise KeyError.
Proof.
  intro H. unfold select_run. rewrite H.
  destruct (in_dec string_dec r (run_ids rows)) as [ Hin | Hout ].
  - now rewrite (loc_value_counts_present String.eqb String.eqb_eq order order_sorts _ _ Hin).
  - now rewrite (loc_value_counts_absent String.eqb String.eqb_eq order order_sorts _ _ Hout).
Qed.

(** The selected identifier is always a [run_id] of a complete row. *)
Lemma select_run_In (rows : list row) (arg : option string) (r : string) (n : Z) :
  select_run order rows arg = Ok (r, n) ->
  In r (run_ids rows) /\ n = occurrences String.eqb r (run_ids rows).
Proof.
  intro H. destruct (truthy_runid arg) as [ r' | ] eqn:E.
  - rewrite (select_run_given _ _ _ E) in H.
    destruct (in_dec string_dec r' (run_ids rows)); [ | discriminate ].
    injection H as -> <-. auto.
  - destruct rows as [ | x rows ]; [ rewrite (select_run_empty _ E) in H; discriminate | ].
    destruct (select_run_default (x :: rows) arg E) as (m & Hs & Hin & _);
      [ discriminate | ].
    rewrite Hs in H. injection H as -> <-. auto.
Qed.
End RunSelection.

(** Under the stable sort the default run is, among the runs with the most
    records, the one that appears first in the file: every run seen before
    its first row has strictly fewer records. *)
Lemma first_seen_first_selects_first_seen (table : list raw_row) (arg : option string) :
  truthy_runid arg = None -> dropna table <> [] ->
  exists self before after,
    __init__ first_seen_first table arg = Ok self /\
    run_ids (dropna table) = before ++ runid self :: after /\
    ~ In (runid self) before /\
    forall r, In r before ->
      occurrences String.eqb r (run_ids (dropna table)) < total_reads self.
Proof.
  intros Harg Hrows. rewrite init_unfold. unfold select_run. rewrite Harg.
  destruct (index0_first_seen_first String.eqb String.eqb_eq (run_ids (dropna table)))
    as (m & l1 & l2 & Hi & Hl & Hm & Hlt & _).
  { destruct (dropna table); [ congruence | discriminate ]. }
  rewrite Hi. cbn [bind].
  rewrite (loc_value_counts_present String.eqb String.eqb_eq first_seen_first
             first_seen_first_sorts (run_ids (dropna table)) m).
  - cbn [bind]. eexists. exists l1, l2. split; [ reflexivity | ]. cbn [runid total_reads].
    auto.
  - rewrite Hl. apply in_or_app. right. now left.
Qed.

(** C5 (as stated, refuted).  The table holds seventeen runs with one read
    each, "R01" first: all the runs have the highest number of records and
    "R01" appears first.  Under [second_seen_first], a sort by decreasing
    count as the code asks for, construction selects "R02". *)
Lemma tie_selects_second_seen_run :
  sorts_by_count (@second_seen_first string) /\
  run_ids (dropna table_seventeen_runs) = seventeen_runs /\
  (forall r, In r seventeen_runs ->
     occurrences String.eqb r (run_ids (dropna table_seventeen_runs)) = 1) /\
  exists self,
    __init__ second_seen_first table_seventeen_runs None = Ok self /\
    runid self = "R02"%string /\ total_reads self = 1.
Proof.
  split; [ apply second_seen_first_sorts | ]. split; [ reflexivity | ]. split.
  - intros r Hr. unfold seventeen_runs in Hr.
    repeat (destruct Hr as [ <- | Hr ]; [ reflexivity | ]). destruct Hr.
  - eexists. split; [ vm_compute; reflexivity | ]. split; reflexivity.
Qed.

(** C5 (amended).  With no run identifier (an argument Python takes as
    false) and at least one complete row, whatever order the sort of
    [value_counts] gives to equal counts, construction succeeds and selects
    a run of the table whose number of records is the highest; [total_reads]
    is the number of records of the selected run, which is also the number
    of rows of the RunTable.  In particular, when "A" has 10 records, "B"
    has 30 and no other run has any, the selected run is "B" and
    [total_reads] is 30. *)
Theorem default_run_has_most_records (order : count_order string)
    (Horder : sorts_by_count order) (table : list raw_row) (arg : option string)
    (Harg : truthy_runid arg = None) (Hrows : dropna table <> []) :
  exists self,
    __init__ order table arg = Ok self /\
    In (runid self) (run_ids (dropna table)) /\
    total_reads self = occurrences String.eqb (runid self) (run_ids (dropna table)) /\
    total_reads self = Z.of_nat (List.length (df self)) /\
    (forall r, occurrences String.eqb r (run_ids (dropna table)) <= total_reads self) /\
    (occurrences String.eqb "A"%string (run_ids (dropna table)) = 10 ->
     occurrences String.eqb "B"%string (run_ids (dropna table)) = 30 ->
     (forall r, r <> "A"%string -> r <> "B"%string ->
        occurrences String.eqb r (run_ids (dropna table)) = 0) ->
     runid self = "B"%string /\ total_reads self = 30).
Proof.
  destruct (select_run_default order Horder (dropna table) arg Harg Hrows)
    as (r & Hs & Hin & Hle).
  rewrite init_unfold, Hs. eexists. split; [ reflexivity | ]. cbn [runid total_reads df].
  split; [ exact Hin | ]. split; [ reflexivity | ].
  split; [ now rewrite length_map, of_run_length | ].
  split; [ exact Hle | ].
  intros HA HB Hother.
  assert (Hrb : r = "B"%string).
  { destruct (string_dec r "B"%string) as [ E | NB ]; [ exact E | exfalso ].
    pose proof (Hle "B"%string) as HleB. rewrite HB in HleB.
    destruct (string_dec r "A"%string) as [ E | NA ].
    - subst r. lia.
    - rewrite (Hother r NA NB) in HleB. lia. }
  subst r. auto.
Qed.

Lemma default_run_has_most_records_witness :
  exists self,
    __init__ second_seen_first table_A10_B30 None = Ok self /\
    runid self = "B"%string /\ total_reads self = 30.
Proof.
  destruct (default_run_has_most_records second_seen_first
              second_seen_first_sorts table_A10_B30 None)
    as (self & Hi & _ & _ & _ & _ & Hex).
  - reflexivity.
  - discriminate.
  - exists self. split; [ exact Hi | ].
    apply Hex; [ reflexivity | reflexivity | ].
    intros r NA NB. apply (occurrences_absent String.eqb String.eqb_eq).
    simpl. intuition congruence.
Defined.



(** C8 (as stated, refuted).  The caller supplies the empty string, which
    is the [run_id] of no row of the table: construction does not fail, it
    selects the run with the most reads, "B", with its 30 reads (no other
    run has as many: the order of equal counts plays no part). *)
Lemma empty_runid_selects_largest_run :
  ~ In EmptyString (run_ids (dropna table_A10_B30)) /\
  exists self,
    __init__ first_seen_first table_A10_B30 (Some EmptyString) = Ok self /\
    runid self = "B"%string /\ total_reads self = 30.
Proof.
  split.
  - simpl. intuition discriminate.
  - eexists. split; [ reflexivity | ]. split; reflexivity.
Qed.

(** C8 (amended).  When the caller supplies a non-empty run identifier
    (what [if not runid] takes as supplied) that is not the [run_id] of any
    complete row, construction fails with the [KeyError] of
    [runid_counts.loc[self.runid]] (the spec's UnknownRunIdError) and
    produces no RunTable. *)
Theorem unknown_runid_fails (order : count_order string) (Horder : sorts_by_count order)
    (table : list raw_row) (r : string)
    (Hr : r <> EmptyString) (Habsent : ~ In r (run_ids (dropna table))) :
  __init__ order table (Some r) = Raise KeyError.
Proof.
  rewrite init_unfold, (select_run_given order Horder _ _ r (truthy_runid_Some r Hr)).
  destruct (in_dec string_dec r (run_ids (dropna table))); [ contradiction | reflexivity ].
Qed.

Lemma unknown_runid_fails_witness :
  __init__ first_seen_first table_A10_B30 (Some "C"%string) = Raise KeyError.
Proof.
  apply unknown_runid_fails.
  - apply first_seen_first_sorts.
  - discriminate.
  - simpl. intuition discriminate.
Defined.

(** C10.  When no row survives [dropna] and no run identifier is supplied,
    construction raises [IndexError] ([runid_counts.index[0]] has no first
    entry): no empty RunTable is returned. *)
Theorem empty_table_default_fails (order : count_order string)
    (Horder : sorts_by_count order) (table : list raw_row) (arg : option string)
    (Harg : truthy_runid arg = None) (Hempty : dropna table = []) :
  __init__ order table arg = Raise IndexError.
Proof.
  rewrite init_unfold, Hempty, (select_run_empty order Horder _ Harg). reflexivity.
Qed.

Lemma empty_table_default_fails_witness :
  __init__ first_seen_first
           [ mk_raw_row (Some "r1"%string) (Some "A"%string) None None None None None None ]
           None = Raise IndexError.
Proof.
  apply empty_table_default_fails;
    [ apply first_seen_first_sorts | reflexivity | reflexivity ].
Defined.

(** C3 (as stated, refuted).  Two reads of run "A" carry the same [read_id]
    "r1": construction does not fail, and the index of the RunTable holds
    "r1" twice (the table has one run: the order of equal counts plays no
    part). *)
Lemma repeated_read_id_accepted :
  exists self,
    __init__ first_seen_first table_repeated_id None = Ok self /\
    map fst (df self) = [ "r1"%string; "r1"%string ] /\
    has_duplicates (map fst (df self)) = true.
Proof.
  eexists. split; [ reflexivity | ]. split; reflexivity.
Qed.

(** C3 (amended).  Construction makes no check on [read_id]
    ([set_index] runs without [verify_integrity]): whenever the run
    selection succeeds, that is with no identifier supplied and at least one
    complete row, or with a supplied identifier that is the [run_id] of a
    complete row, construction succeeds whether or not [read_id] repeats,
    and the index of the RunTable lists the [read_id] of every row of the
    selected run, repeated ones included, in order: nothing is
    deduplicated. *)
Theorem repeated_read_ids_are_kept (order : count_order string)
    (Horder : sorts_by_count order) (table : list raw_row) (arg : option string)
    (Hsel : (truthy_runid arg = None /\ dropna table <> []) \/
            (exists r, truthy_runid arg = Some r /\ In r (run_ids (dropna table)))) :
  exists self,
    __init__ order table arg = Ok self /\
    map fst (df self) = map read_id (of_run (runid self) (dropna table)).
Proof.
  rewrite init_unfold.
  assert (Hok : exists r n, select_run order (dropna table) arg = Ok (r, n)).
  { destruct Hsel as [ [ Harg Hrows ] | (r & Harg & Hin) ].
    - destruct (select_run_default order Horder _ _ Harg Hrows) as (r & Hs & _). eauto.
    - rewrite (select_run_given order Horder _ _ _ Harg).
      destruct (in_dec string_dec r (run_ids (dropna table))); [ eauto | contradiction ]. }
  destruct Hok as (r & n & ->). eexists. split; [ reflexivity | ].
  simpl. rewrite map_map. reflexivity.
Qed.

Lemma repeated_read_ids_are_kept_witness :
  exists self,
    __init__ first_seen_first table_repeated_id (Some "A"%string) = Ok self /\
    map fst (df self) = map read_id (of_run (runid self) (dropna table_repeated_id)).
Proof.
  apply repeated_read_ids_are_kept.
  - apply first_seen_first_sorts.
  - right. exists "A"%string. split; [ reflexivity | ]. simpl. auto.
Defined.

(** X3.  Whenever construction succeeds, [total_reads] is the number of rows
    of the RunTable, which is not empty; the selected identifier is the
    [run_id] of a complete row of the table, and it is the caller's when
    the caller supplies one (a non-empty string). *)
Theorem construction_invariants (order : count_order string)
    (Horder : sorts_by_count order) (table : list raw_row) (arg : option string)
    (self : pycoQC) (Hinit : __init__ order table arg = Ok self) :
  total_reads self = Z.of_nat (List.length (df self)) /\
  0 < total_reads self /\
  In (runid self) (run_ids (dropna table)) /\
  (forall r, truthy_runid arg = Some r -> runid self = r).
Proof.
  rewrite init_unfold in Hinit.
  destruct (select_run order (dropna table) arg) as [ [ r n ] | e ] eqn:Hs; [ | discriminate ].
  injection Hinit as <-. cbn [total_reads df runid].
  destruct (select_run_In order Horder _ _ _ _ Hs) as [ Hin -> ].
  split; [ now rewrite length_map, of_run_length | ].
  split; [ now apply (occurrences_present String.eqb String.eqb_eq) | ].
  split; [ exact Hin | ].
  intros r' Hr'. rewrite (select_run_given order Horder _ _ _ Hr') in Hs.
  destruct (in_dec string_dec r' (run_ids (dropna table))); [ | discriminate ].
  now injection Hs as -> _.
Qed.

Lemma construction_invariants_witness :
  exists self,
    __init__ first_seen_first table_with_gap (Some "B"%string) = Ok self /\
    total_reads self = Z.of_nat (List.length (df self)) /\ 0 < total_reads self.
Proof.
  eexists. split; [ reflexivity | ].
  destruct (construction_invariants first_seen_first first_seen_first_sorts
              table_with_gap (Some "B"%string) _ eq_refl)
    as (H1 & H2 & _).
  split; [ exact H1 | exact H2 ].
Defined.

(** X4.  With a supplied (non-empty) identifier the lines of the other
    runs do not count: a line that is incomplete, or whose [run_id] is
    another one, can be put in or taken out of the table without changing
    the outcome of the construction, error included. *)
Theorem explicit_run_ignores_other_lines (order : count_order string)
    (Horder : sorts_by_count order) (t1 t2 : list raw_row) (x : raw_row) (r : string)
    (Hr : r <> EmptyString)
    (Hx : forall y, complete x = Some y -> run_id (cols y) <> r) :
  __init__ order (t1 ++ x :: t2) (Some r) = __init__ order (t1 ++ t2) (Some r).
Proof.
  rewrite !init_unfold, !dropna_app. simpl dropna.
  destruct (complete x) as [ y | ]; [ | reflexivity ].
  specialize (Hx y eq_refl).
  assert (Hof : of_run r (dropna t1 ++ y :: dropna t2)
                = of_run r (dropna t1 ++ dropna t2)).
  { rewrite !of_run_app. f_equal. unfold of_run. simpl.
    destruct (String.eqb (run_id (cols y)) r) eqn:E; [ | reflexivity ].
    apply String.eqb_eq in E. contradiction. }
  rewrite !(select_run_given order Horder _ _ r (truthy_runid_Some r Hr)).
  rewrite <- !of_run_length, Hof.
  destruct (in_dec string_dec r (run_ids (dropna t1 ++ y :: dropna t2))) as [ H1 | H1 ];
    destruct (in_dec string_dec r (run_ids (dropna t1 ++ dropna t2))) as [ H2 | H2 ];
    cbv iota beta; rewrite ?Hof; try reflexivity; exfalso.
  - apply H2. apply run_ids_In. rewrite <- Hof. now apply run_ids_In.
  - apply H1. apply run_ids_In. rewrite Hof. now apply run_ids_In.
Qed.

Lemma explicit_run_ignores_other_lines_witness :
  __init__ first_seen_first
           ([ example_row "r1" "A" 1 0 1 100 10 5 ]
              ++ example_row "r3" "B" 2 5 1 200 11 7 :: []) (Some "A"%string)
  = __init__ first_seen_first
             ([ example_row "r1" "A" 1 0 1 100 10 5 ] ++ []) (Some "A"%string).
Proof.
  apply explicit_run_ignores_other_lines.
  - apply first_seen_first_sorts.
  - discriminate.
  - intros y Hy. injection Hy as <-. discriminate.
Defined.

(** X5.  The run that a construction selects can be asked for by name:
    with the selected identifier as [runid] (when it is not the empty
    string) construction on the same table gives the same object. *)
Theorem selected_run_can_be_requested (order : count_order string)
    (Horder : sorts_by_count order) (table : list raw_row) (arg : option string)
    (self : pycoQC) (Hinit : __init__ order table arg = Ok self)
    (Hne : runid self <> EmptyString) :
  __init__ order table (Some (runid self)) = Ok self.
Proof.
  rewrite init_unfold in Hinit.
  destruct (select_run order (dropna table) arg) as [ [ r n ] | e ] eqn:Hs; [ | discriminate ].
  injection Hinit as <-. cbn [runid] in *.
  destruct (select_run_In order Horder _ _ _ _ Hs) as [ Hin -> ].
  rewrite init_unfold, (select_run_given order Horder _ _ r (truthy_runid_Some r Hne)).
  destruct (in_dec string_dec r (run_ids (dropna table))); [ reflexivity | contradiction ].
Qed.

Lemma selected_run_can_be_requested_witness :
  exists self,
    __init__ first_seen_first table_A10_B30 None = Ok self /\
    __init__ first_seen_first table_A10_B30 (Some "B"%string) = Ok self.
Proof.
  eexists. split; [ reflexivity | ].
  apply (selected_run_can_be_requested first_seen_first first_seen_first_sorts
           table_A10_B30 None _ eq_refl).
  discriminate.
Defined.

(** * Binary floating point *)

(** ** Powers of two *)

Lemma pow2_pos (s : Z) : (0 < 2 ^ s)%Q.
Proof. apply Qpower_0_lt. reflexivity. Qed.

Lemma pow2_plus (a b : Z) : (2 ^ (a + b) == 2 ^ a * 2 ^ b)%Q.
Proof. apply Qpower_plus. discriminate. Qed.

Lemma pow2_cancel (s : Z) : (2 ^ (- s) * 2 ^ s == 1)%Q.
Proof. rewrite <- pow2_plus. replace (- s + s) with 0 by lia. reflexivity. Qed.

Lemma pow2_le (a b : Z) : a <= b -> (2 ^ a <= 2 ^ b)%Q.
Proof. intro H. apply Qpower_le_compat_l; [ exact H | discriminate ]. Qed.

Lemma pow2_lt_inv (a b : Z) : (2 ^ a < 2 ^ b)%Q -> a < b.
Proof. intro H. apply (Qpower_lt_compat_l_inv 2); [ exact H | reflexivity ]. Qed.

Lemma pow2_Z (n : Z) : 0 <= n -> (inject_Z (2 ^ n) == 2 ^ n)%Q.
Proof. intro H. rewrite Zpower_Qpower by exact H. reflexivity. Qed.

(** A multiple of [2 ^ s] stays one on a finer grid. *)
Lemma pow2_grid (s e : Z) : s <= e -> (2 ^ e == inject_Z (2 ^ (e - s)) * 2 ^ s)%Q.
Proof.
  intro H. rewrite pow2_Z by lia. rewrite <- pow2_plus. now replace (e - s + s) with e by lia.
Qed.

(** ** The binary logarithm *)

Lemma Qlog2_spec (q : Q) :
  (0 < q)%Q -> (2 ^ Qlog2 q <= q)%Q /\ (q < 2 ^ (Qlog2 q + 1))%Q.
Proof.
  intro Hq. destruct q as [ n d ].
  assert (Hn : 0 < n) by (unfold Qlt in Hq; simpl in Hq; lia).
  unfold Qlog2. cbn [Qnum Qden].
  set (a := Z.log2 n). set (b := Z.log2 (Zpos d)).
  destruct (Z.log2_spec n Hn) as [ Ha1 Ha2 ]. fold a in Ha1, Ha2.
  destruct (Z.log2_spec (Zpos d) ltac:(lia)) as [ Hb1 Hb2 ]. fold b in Hb1, Hb2.
  pose proof (Z.log2_nonneg n) as Ha0. pose proof (Z.log2_nonneg (Zpos d)) as Hb0.
  fold a in Ha0. fold b in Hb0.
  assert (Eq : (n # d == inject_Z n / inject_Z (Zpos d))%Q) by apply Qmake_Qdiv.
  assert (Hd : (0 < inject_Z (Zpos d))%Q) by reflexivity.
  assert (Hqd : ((n # d) * inject_Z (Zpos d) == inject_Z n)%Q).
  { rewrite Eq. field. intro H. rewrite H in Hd. discriminate. }
  assert (Qa1 : (2 ^ a <= inject_Z n)%Q) by (rewrite <- pow2_Z by lia; now rewrite <- Zle_Qle).
  assert (Qa2 : (inject_Z n < 2 ^ (a + 1))%Q) by (rewrite <- pow2_Z by lia; now rewrite <- Zlt_Qlt).
  assert (Qb1 : (2 ^ b <= inject_Z (Zpos d))%Q) by (rewrite <- pow2_Z by lia; now rewrite <- Zle_Qle).
  assert (Qb2 : (inject_Z (Zpos d) < 2 ^ (b + 1))%Q) by (rewrite <- pow2_Z by lia; now rewrite <- Zlt_Qlt).
  assert (Hup : (n # d < 2 ^ (a - b + 1))%Q).
  { assert (H1 : ((n # d) * 2 ^ b <= (n # d) * inject_Z (Zpos d))%Q).
    { apply Qmult_le_l; assumption. }
    assert (H2 : ((n # d) * 2 ^ b < 2 ^ (a + 1))%Q) by lra.
    assert (H3 : (2 ^ (a + 1) == 2 ^ (a - b + 1) * 2 ^ b)%Q).
    { rewrite <- pow2_plus. now replace (a - b + 1 + b) with (a + 1) by lia. }
    rewrite H3 in H2. apply Qmult_lt_r in H2; [ exact H2 | apply pow2_pos ]. }
  assert (Hlo : (2 ^ (a - b - 1) < n # d)%Q).
  { assert (H1 : ((n # d) * inject_Z (Zpos d) < (n # d) * 2 ^ (b + 1))%Q).
    { apply Qmult_lt_l; assumption. }
    assert (H2 : (2 ^ a < (n # d) * 2 ^ (b + 1))%Q) by lra.
    assert (H3 : (2 ^ a == 2 ^ (a - b - 1) * 2 ^ (b + 1))%Q).
    { rewrite <- pow2_plus. now replace (a - b - 1 + (b + 1)) with a by lia. }
    rewrite H3 in H2. apply Qmult_lt_r in H2; [ exact H2 | apply pow2_pos ]. }
  destruct (Qle_bool (2 ^ (a - b)) (n # d)) eqn:E.
  - apply Qle_bool_iff in E. split; [ exact E | exact Hup ].
  - replace (a - b - 1 + 1) with (a - b) by lia. split; [ lra | ].
    destruct (Qlt_le_dec (n # d) (2 ^ (a - b))) as [ H | H ]; [ exact H | ].
    apply Qle_bool_iff in H. congruence.
Qed.

Lemma Qlog2_unique (q : Q) (e : Z) :
  (2 ^ e <= q)%Q -> (q < 2 ^ (e + 1))%Q -> Qlog2 q = e.
Proof.
  intros H1 H2.
  assert (Hq : (0 < q)%Q) by (pose proof (pow2_pos e); lra).
  destruct (Qlog2_spec q Hq) as [ H3 H4 ].
  assert (A : Qlog2 q < e + 1) by (apply pow2_lt_inv; lra).
  assert (B : e < Qlog2 q + 1) by (apply pow2_lt_inv; lra).
  lia.
Qed.

Lemma Qlog2_le (x y : Q) : (0 < x)%Q -> (x <= y)%Q -> Qlog2 x <= Qlog2 y.
Proof.
  intros Hx Hxy. destruct (Qlog2_spec x Hx) as [ H1 _ ].
  destruct (Qlog2_spec y ltac:(lra)) as [ _ H2 ].
  assert (A : Qlog2 x < Qlog2 y + 1) by (apply pow2_lt_inv; lra). lia.
Qed.

Lemma Qlog2_compat (x y : Q) : (0 < x)%Q -> (x == y)%Q -> Qlog2 x = Qlog2 y.
Proof.
  intros Hx E. destruct (Qlog2_spec x Hx) as [ H1 H2 ].
  symmetry. apply Qlog2_unique; lra.
Qed.

(** ** Rounding to the nearest integer *)

Lemma Qcompare_Lt (x y : Q) : (x ?= y)%Q = Lt <-> (x < y)%Q.
Proof. symmetry. apply Qlt_alt. Qed.

Lemma Qcompare_Gt (x y : Q) : (x ?= y)%Q = Gt <-> (y < x)%Q.
Proof. symmetry. apply Qgt_alt. Qed.

Lemma Qcompare_Eq (x y : Q) : (x ?= y)%Q = Eq <-> (x == y)%Q.
Proof. symmetry. apply Qeq_alt. Qed.

Lemma round_half_even_compat (x y : Q) :
  (x == y)%Q -> round_half_even x = round_half_even y.
Proof.
  intro E. unfold round_half_even. rewrite (Qfloor_comp _ _ E).
  assert (H : (x - inject_Z (Qfloor y) ?= 1 # 2)%Q = (y - inject_Z (Qfloor y) ?= 1 # 2)%Q).
  { apply Qcompare_comp; [ now rewrite E | reflexivity ]. }
  now rewrite H.
Qed.

Lemma round_half_even_bounds (q : Q) :
  Qfloor q <= round_half_even q <= Qfloor q + 1.
Proof.
  unfold round_half_even.
  destruct (q - inject_Z (Qfloor q) ?= 1 # 2)%Q; [ destruct (Z.even (Qfloor q)) | | ]; lia.
Qed.

Lemma round_half_even_Z (k : Z) : round_half_even (inject_Z k) = k.
Proof.
  unfold round_half_even. rewrite Qfloor_Z.
  assert (H : (inject_Z k - inject_Z k ?= 1 # 2)%Q = Lt).
  { apply Qcompare_Lt. lra. }
  now rewrite H.
Qed.

Lemma round_half_even_le (x y : Q) :
  (x <= y)%Q -> round_half_even x <= round_half_even y.
Proof.
  intro Hxy. pose proof (Qfloor_resp_le _ _ Hxy) as Hf.
  pose proof (round_half_even_bounds x) as Bx. pose proof (round_half_even_bounds y) as By.
  destruct (Z.eq_dec (Qfloor x) (Qfloor y)) as [ E | NE ]; [ | lia ].
  unfold round_half_even. rewrite E.
  destruct (x - inject_Z (Qfloor y) ?= 1 # 2)%Q eqn:Cx;
    destruct (y - inject_Z (Qfloor y) ?= 1 # 2)%Q eqn:Cy;
    try (destruct (Z.even (Qfloor y))); try lia; exfalso;
    rewrite ?Qcompare_Lt, ?Qcompare_Gt, ?Qcompare_Eq in Cx;
    rewrite ?Qcompare_Lt, ?Qcompare_Gt, ?Qcompare_Eq in Cy; lra.
Qed.

(** ** Rounding to a grid *)

Lemma round_to_compat (s : Z) (x y : Q) : (x == y)%Q -> (round_to s x == round_to s y)%Q.
Proof.
  intro E. unfold round_to.
  rewrite (round_half_even_compat (x * 2 ^ (- s)) (y * 2 ^ (- s))); [ reflexivity | ].
  now rewrite E.
Qed.

Lemma round_to_le (s : Z) (x y : Q) : (x <= y)%Q -> (round_to s x <= round_to s y)%Q.
Proof.
  intro H. unfold round_to. apply Qmult_le_r; [ apply pow2_pos | ].
  rewrite <- Zle_Qle. apply round_half_even_le.
  apply Qmult_le_r; [ apply pow2_pos | exact H ].
Qed.

Lemma round_to_grid (s k : Z) (q : Q) :
  (q == inject_Z k * 2 ^ s)%Q -> (round_to s q == q)%Q.
Proof.
  intro E. unfold round_to.
  rewrite (round_half_even_compat _ (inject_Z k)).
  - rewrite round_half_even_Z. now symmetry.
  - rewrite E, <- Qmult_assoc, (Qmult_comm (2 ^ s)), pow2_cancel. ring.
Qed.

Lemma round_to_pow2 (s e : Z) : s <= e -> (round_to s (2 ^ e) == 2 ^ e)%Q.
Proof. intro H. apply (round_to_grid s (2 ^ (e - s))). now apply pow2_grid. Qed.

Lemma round_to_nonneg (s : Z) (q : Q) : (0 <= q)%Q -> (0 <= round_to s q)%Q.
Proof.
  intro H. assert (E : (round_to s 0 == 0)%Q).
  { apply (round_to_grid s 0). ring. }
  rewrite <- E. now apply round_to_le.
Qed.

(** ** The grid of a positive number *)

Lemma scale_le (x y : Q) : (0 < x)%Q -> (x <= y)%Q -> scale x <= scale y.
Proof. intros Hx Hxy. unfold scale. pose proof (Qlog2_le x y Hx Hxy). lia. Qed.

Lemma scale_compat (x y : Q) : (0 < x)%Q -> (x == y)%Q -> scale x = scale y.
Proof. intros Hx E. unfold scale. now rewrite (Qlog2_compat x y Hx E). Qed.

(** ** Rounding to binary64 *)

Lemma float64_pos (q : Q) : (0 < q)%Q -> float64 q = Qred (round_to (scale q) q).
Proof. intro H. unfold float64. apply Qcompare_Gt in H. now rewrite H. Qed.

Lemma float64_neg (q : Q) : (q < 0)%Q -> float64 q = Qred (- round_to (scale (- q)) (- q)).
Proof. intro H. unfold float64. apply Qcompare_Lt in H. now rewrite H. Qed.

Lemma float64_zero (q : Q) : (q == 0)%Q -> float64 q = 0%Q.
Proof. intro H. unfold float64. apply Qcompare_Eq in H. now rewrite H. Qed.

Lemma float64_compat (x y : Q) : (x == y)%Q -> float64 x = float64 y.
Proof.
  intro E. destruct (Q_dec x 0) as [ [ H | H ] | H ].
  - rewrite (float64_neg x H), (float64_neg y) by lra. apply Qred_complete.
    assert (E' : (- x == - y)%Q) by now rewrite E.
    rewrite (scale_compat (- x) (- y)) by lra. now rewrite (round_to_compat _ _ _ E').
  - rewrite (float64_pos x H), (float64_pos y) by lra. apply Qred_complete.
    rewrite (scale_compat x y) by assumption. now apply round_to_compat.
  - rewrite (float64_zero x H), (float64_zero y) by lra. reflexivity.
Qed.

Lemma float64_opp (q : Q) : (float64 (- q) == - float64 q)%Q.
Proof.
  destruct (Q_dec q 0) as [ [ H | H ] | H ].
  - rewrite (float64_neg q H), (float64_pos (- q)) by lra. rewrite !Qred_correct. ring.
  - rewrite (float64_pos q H), (float64_neg (- q)) by lra. rewrite !Qred_correct.
    assert (E : (- - q == q)%Q) by ring.
    rewrite (scale_compat (- - q) q) by lra. now rewrite (round_to_compat _ _ _ E).
  - rewrite (float64_zero q H), (float64_zero (- q)) by lra. reflexivity.
Qed.

Lemma float64_nonneg (q : Q) : (0 <= q)%Q -> (0 <= float64 q)%Q.
Proof.
  intro H. destruct (Qlt_le_dec 0 q) as [ Hpos | Hz ].
  - rewrite (float64_pos q Hpos), Qred_correct. now apply round_to_nonneg.
  - rewrite (float64_zero q) by lra. apply Qle_refl.
Qed.

(** Rounding is monotone. *)
Lemma float64_le_pos (x y : Q) : (0 < x)%Q -> (x <= y)%Q -> (float64 x <= float64 y)%Q.
Proof.
  intros Hx Hxy. rewrite (float64_pos x Hx), (float64_pos y) by lra. rewrite !Qred_correct.
  pose proof (scale_le x y Hx Hxy) as Hs.
  destruct (Z.eq_dec (scale x) (scale y)) as [ E | NE ].
  - rewrite E. now apply round_to_le.
  - assert (Hy : (0 < y)%Q) by lra.
    destruct (Qlog2_spec x Hx) as [ _ Hx2 ]. destruct (Qlog2_spec y Hy) as [ Hy1 _ ].
    unfold scale in *.
    assert (Hlt : Qlog2 x + 1 <= Qlog2 y) by lia.
    apply Qle_trans with (2 ^ Qlog2 y)%Q.
    + rewrite <- (round_to_pow2 (Z.max (Qlog2 x - 52) (-1074)) (Qlog2 y)) by lia.
      apply round_to_le. pose proof (pow2_le _ _ Hlt). lra.
    + rewrite <- (round_to_pow2 (Z.max (Qlog2 y - 52) (-1074)) (Qlog2 y)) at 1 by lia.
      now apply round_to_le.
Qed.

Lemma float64_le (x y : Q) : (x <= y)%Q -> (float64 x <= float64 y)%Q.
Proof.
  intro Hxy. destruct (Qlt_le_dec 0 x) as [ Hx | Hx ].
  - now apply float64_le_pos.
  - destruct (Qlt_le_dec y 0) as [ Hy | Hy ].
    + assert (H : (float64 (- y) <= float64 (- x))%Q) by (apply float64_le_pos; lra).
      rewrite !float64_opp in H. lra.
    + pose proof (float64_nonneg y Hy). pose proof (float64_nonneg (- x) ltac:(lra)) as H1.
      rewrite float64_opp in H1. lra.
Qed.

(** A number with a significand below [2 ^ 53] on the grid of [2 ^ e],
    [e >= -1074], is a binary64 number. *)
Lemma float64_exact_pos (n e : Z) :
  0 < n < 2 ^ 53 -> -1074 <= e ->
  (float64 (inject_Z n * 2 ^ e) == inject_Z n * 2 ^ e)%Q.
Proof.
  intros Hn He. set (q := (inject_Z n * 2 ^ e)%Q).
  assert (Hq : (0 < q)%Q).
  { unfold q. apply Qmult_lt_0_compat; [ | apply pow2_pos ].
    change 0%Q with (inject_Z 0). rewrite <- Zlt_Qlt. lia. }
  rewrite (float64_pos q Hq), Qred_correct.
  destruct (Qlog2_spec q Hq) as [ H1 _ ].
  assert (Hup : (q < 2 ^ (53 + e))%Q).
  { unfold q. rewrite pow2_plus. apply Qmult_lt_r; [ apply pow2_pos | ].
    rewrite <- pow2_Z by lia. rewrite <- Zlt_Qlt. lia. }
  assert (HE : Qlog2 q < 53 + e) by (apply pow2_lt_inv; lra).
  assert (Hs : scale q <= e) by (unfold scale; lia).
  apply (round_to_grid (scale q) (n * 2 ^ (e - scale q))).
  unfold q. rewrite inject_Z_mult, <- Qmult_assoc, <- pow2_grid by exact Hs. reflexivity.
Qed.

Lemma float64_exact (n e : Z) :
  Z.abs n < 2 ^ 53 -> -1074 <= e -> is_binary64 (inject_Z n * 2 ^ e).
Proof.
  intros Hn He. unfold is_binary64. destruct (Z.lt_trichotomy n 0) as [ H | [ H | H ] ].
  - assert (E : (inject_Z n * 2 ^ e == - (inject_Z (- n) * 2 ^ e))%Q).
    { rewrite inject_Z_opp. ring. }
    rewrite (float64_compat _ _ E), float64_opp, float64_exact_pos by lia. now symmetry.
  - subst n. rewrite (float64_zero (inject_Z 0 * 2 ^ e)) by ring. ring.
  - apply float64_exact_pos; lia.
Qed.

Lemma float64_Z (n : Z) : Z.abs n < 2 ^ 53 -> (float64 (inject_Z n) == inject_Z n)%Q.
Proof.
  intro H. assert (E : (inject_Z n == inject_Z n * 2 ^ 0)%Q) by (simpl; ring).
  pose proof (float64_exact n 0 H ltac:(lia)) as Hx. unfold is_binary64 in Hx.
  rewrite (float64_compat _ _ E), Hx. now symmetry.
Qed.

(** Every value of [float64] is a binary64 number. *)
Lemma float64_repr (q : Q) :
  exists n e, Z.abs n < 2 ^ 53 /\ -1074 <= e /\ (float64 q == inject_Z n * 2 ^ e)%Q.
Proof.
  assert (Hpos : forall x, (0 < x)%Q ->
            exists n e, 0 <= n < 2 ^ 53 /\ -1074 <= e
                        /\ (round_to (scale x) x == inject_Z n * 2 ^ e)%Q).
  { intros x Hx. destruct (Qlog2_spec x Hx) as [ _ H2 ].
    set (s := scale x) in *.
    assert (Hs : Qlog2 x - 52 <= s /\ -1074 <= s) by (unfold s, scale; lia).
    set (k := round_half_even (x * 2 ^ (- s))).
    assert (Hk0 : 0 <= k).
    { unfold k. rewrite <- (round_half_even_Z 0). apply round_half_even_le.
      apply Qmult_le_0_compat; [ lra | apply Qlt_le_weak, pow2_pos ]. }
    assert (Hk1 : k <= 2 ^ 53).
    { unfold k. rewrite <- (round_half_even_Z (2 ^ 53)). apply round_half_even_le.
      rewrite pow2_Z by lia.
      assert (H3 : (x * 2 ^ (- s) < 2 ^ (Qlog2 x + 1) * 2 ^ (- s))%Q).
      { apply Qmult_lt_r; [ apply pow2_pos | exact H2 ]. }
      rewrite <- pow2_plus in H3.
      assert (H4 : (2 ^ (Qlog2 x + 1 + - s) <= 2 ^ 53)%Q) by (apply pow2_le; lia).
      lra. }
    destruct (Z.eq_dec k (2 ^ 53)) as [ E | NE ].
    - exists (2 ^ 52), (s + 1). split; [ lia | ]. split; [ lia | ].
      unfold round_to. fold k. rewrite E, pow2_plus, !pow2_Z by lia.
      change (2 ^ 53)%Q with (2 ^ 52 * 2 ^ 1)%Q. ring.
    - exists k, s. split; [ lia | ]. split; [ lia | ]. reflexivity. }
  destruct (Q_dec q 0) as [ [ H | H ] | H ].
  - destruct (Hpos (- q)%Q ltac:(lra)) as (n & e & Hn & He & E).
    exists (- n), e. split; [ lia | ]. split; [ exact He | ].
    rewrite (float64_neg q H), Qred_correct, E, inject_Z_opp. ring.
  - destruct (Hpos q H) as (n & e & Hn & He & E).
    exists n, e. split; [ lia | ]. split; [ exact He | ].
    now rewrite (float64_pos q H), Qred_correct.
  - exists 0, 0. split; [ lia | ]. split; [ lia | ].
    rewrite (float64_zero q H). ring.
Qed.

Lemma float64_is_binary64 (q : Q) : is_binary64 (float64 q).
Proof.
  destruct (float64_repr q) as (n & e & Hn & He & E).
  unfold is_binary64. rewrite (float64_compat _ _ E), E. now apply float64_exact.
Qed.

Lemma float64_reduced (q : Q) : Qred (float64 q) = float64 q.
Proof.
  unfold float64. destruct (q ?= 0)%Q; [ reflexivity | | ];
    apply Qred_complete, Qred_correct.
Qed.

Lemma float64_idem (q : Q) : float64 (float64 q) = float64 q.
Proof.
  rewrite <- (float64_reduced q) at 2. rewrite <- float64_reduced.
  apply Qred_complete. apply float64_is_binary64.
Qed.

(** * Facts about the numpy models *)

Lemma nth_map_seq {A : Type} (f : nat -> A) (n i : nat) (d : A) :
  (i < n)%nat -> nth i (map f (seq 0 n)) d = f i.
Proof.
  intro H. rewrite (nth_indep _ d (f O)) by now rewrite length_map, length_seq.
  rewrite map_nth, seq_nth by exact H. reflexivity.
Qed.


Lemma Qle_bool_trans (a b c : Q) :
  Qle_bool a b = true -> Qle_bool b c = true -> Qle_bool a c = true.
Proof. rewrite !Qle_bool_iff. apply Qle_trans. Qed.

Lemma Qle_bool_below (a b v : Q) :
  Qle_bool a b = true -> Qle_bool a v = false -> Qle_bool v b = true.
Proof.
  intros Hab Hav. apply Qle_bool_iff in Hab. apply Qle_bool_iff.
  destruct (Qlt_le_dec v a) as [ Hlt | Hle ].
  - lra.
  - apply Qle_bool_iff in Hle. congruence.
Qed.

Lemma Qlt_bool_iff (x y : Q) : Qlt_bool x y = true <-> (x < y)%Q.
Proof.
  unfold Qlt_bool. rewrite negb_true_iff. split; intro H.
  - destruct (Qlt_le_dec x y) as [ Hlt | Hle ]; [ exact Hlt | ].
    apply Qle_bool_iff in Hle. congruence.
  - destruct (Qle_bool y x) eqn:E; [ | reflexivity ].
    apply Qle_bool_iff in E. lra.
Qed.

(** Every binary64 number has a significand below [2 ^ 53] on a grid of
    [2 ^ e], [e >= -1074]. *)
Lemma binary64_repr (q : Q) :
  is_binary64 q ->
  exists n e, Z.abs n < 2 ^ 53 /\ -1074 <= e /\ (q == inject_Z n * 2 ^ e)%Q.
Proof.
  intro H. destruct (float64_repr q) as (n & e & Hn & He & E).
  exists n, e. split; [ exact Hn | ]. split; [ exact He | ].
  unfold is_binary64 in H. now rewrite <- H.
Qed.

(** An integer below a rounded number is below the number itself. *)
Lemma below_float64 (i : Z) (x : Q) :
  Z.abs i < 2 ^ 53 -> (inject_Z i < float64 x)%Q -> (inject_Z i < x)%Q.
Proof.
  intros Hi H. destruct (Qlt_le_dec (inject_Z i) x) as [ Hlt | Hge ]; [ exact Hlt | ].
  apply float64_le in Hge. rewrite (float64_Z i Hi) in Hge. lra.
Qed.

(** An integer below the ceiling of a number is below the number. *)
Lemma below_ceiling (i : Z) (x : Q) : i < Qceiling x -> (inject_Z i < x)%Q.
Proof.
  intro H. apply Qle_lt_trans with (inject_Z (Qceiling x - 1)); [ | apply Qceiling_lt ].
  rewrite <- Zle_Qle. lia.
Qed.

(** ** The values of [np.arange] *)

Lemma np_arange_Ok (start stop step : Q) (e : list Q) :
  np_arange start stop step = Ok e ->
  ~ (step == 0)%Q /\
  e = map (arange_value (float64 start) (float64 (start + step)))
          (seq 0 (Z.to_nat (Qceiling (float64 (float64 (stop - start) / step))))).
Proof.
  unfold np_arange. destruct (Qeq_bool step 0) eqn:E; [ discriminate | ].
  intro H. injection H as <-. split; [ | reflexivity ].
  intro H. apply Qeq_bool_iff in H. congruence.
Qed.

(** From 0 and with a binary64 step, value [i] is the rounded product
    [i * step]. *)
Lemma arange_value_from_zero (step : Q) (i : nat) :
  is_binary64 step ->
  arange_value (float64 0) (float64 (0 + step)) i = float64 (inject_Z (Z.of_nat i) * step).
Proof.
  intro Hs. unfold is_binary64 in Hs.
  assert (E1 : float64 (0 + step) = float64 step) by (apply float64_compat; ring).
  destruct i as [ | [ | i ] ]; cbn [arange_value].
  - symmetry. apply float64_zero. change (inject_Z (Z.of_nat 0)) with 0%Q. ring.
  - rewrite E1. apply float64_compat. change (inject_Z (Z.of_nat 1)) with 1%Q. ring.
  - set (j := inject_Z (Z.of_nat (S (S i)))).
    rewrite E1. change (float64 0) with 0%Q.
    assert (E2 : float64 (float64 step - 0) = float64 step).
    { rewrite <- (float64_idem step) at 2. apply float64_compat. ring. }
    rewrite E2.
    assert (E3 : float64 (j * float64 step) = float64 (j * step)).
    { apply float64_compat. now rewrite Hs. }
    rewrite E3. rewrite <- (float64_idem (j * step)) at 2. apply float64_compat. ring.
Qed.

(** From 0, with a positive binary64 step and fewer than [2 ^ 53] values,
    no value of [np.arange] is above a binary64 [stop]: the exact product
    [i * step] is below [stop], and its rounding is at most [stop]. *)
Lemma arange_from_zero_bound (stop step : Q) (i : nat) :
  (0 < step)%Q -> is_binary64 stop ->
  Z.of_nat i < 2 ^ 53 ->
  Z.of_nat i < Qceiling (float64 (float64 (stop - 0) / step)) ->
  (inject_Z (Z.of_nat i) * step < stop)%Q /\
  (float64 (inject_Z (Z.of_nat i) * step) <= stop)%Q.
Proof.
  intros Hstep Hstop Hi Hlen. unfold is_binary64 in Hstop.
  assert (E : float64 (float64 (stop - 0) / step) = float64 (stop / step)).
  { apply float64_compat.
    assert (E0 : float64 (stop - 0) = float64 stop) by (apply float64_compat; ring).
    now rewrite E0, Hstop. }
  rewrite E in Hlen. apply below_ceiling in Hlen.
  apply below_float64 in Hlen; [ | lia ].
  assert (Hlt : (inject_Z (Z.of_nat i) * step < stop)%Q).
  { assert (H : (inject_Z (Z.of_nat i) * step < stop / step * step)%Q).
    { apply Qmult_lt_r; assumption. }
    assert (Hq : (stop / step * step == stop)%Q).
    { field. intro Hz. rewrite Hz in Hstep. apply (Qlt_irrefl 0 Hstep). }
    lra. }
  split; [ exact Hlt | ].
  rewrite <- Hstop. apply float64_le. lra.
Qed.

(** ** Powers of ten *)

Lemma Qpower_pos_lt_base (a b : Q) (n : positive) :
  (0 <= a -> a < b -> a ^ Zpos n < b ^ Zpos n)%Q.
Proof.
  intros Ha Hab. induction n as [ | n IH ] using Pos.peano_ind.
  - simpl. exact Hab.
  - rewrite Pos2Z.inj_succ. unfold Z.succ.
    rewrite !Qpower_plus' by lia. change (a ^ 1)%Q with a. change (b ^ 1)%Q with b.
    pose proof (Qpower_0_le a (Zpos n) Ha) as Hn.
    assert (H1 : (a ^ Zpos n * a <= b ^ Zpos n * a)%Q).
    { destruct (Qlt_le_dec 0 a) as [ Hpos | Hz ].
      - apply Qmult_le_r; [ exact Hpos | lra ].
      - assert (Ez : (a == 0)%Q) by lra. rewrite Ez. lra. }
    assert (H2 : (b ^ Zpos n * a < b ^ Zpos n * b)%Q).
    { apply Qmult_lt_l; [ lra | exact Hab ]. }
    lra.
Qed.

Lemma Qpower_pos_le_base (a b : Q) (n : positive) :
  (0 <= a -> a <= b -> a ^ Zpos n <= b ^ Zpos n)%Q.
Proof.
  intros Ha Hab. destruct (Qlt_le_dec a b) as [ Hlt | Hge ].
  - apply Qlt_le_weak. now apply Qpower_pos_lt_base.
  - assert (E : (a == b)%Q) by lra. rewrite E. apply Qle_refl.
Qed.

(** A positive value cannot be below [10 ** e1] and at least [10 ** e2]
    when [e1 <= e2]. *)
Lemma pow10_gap (v e1 e2 : Q) :
  (0 < v)%Q -> (e1 <= e2)%Q ->
  (v ^ Zpos (Qden e1) < 10 ^ Qnum e1)%Q -> (10 ^ Qnum e2 <= v ^ Zpos (Qden e2))%Q -> False.
Proof.
  intros Hv He HA HB.
  pose proof (Qpower_0_le v (Zpos (Qden e1)) ltac:(lra)) as H1.
  pose proof (Qpower_0_le 10 (Qnum e2) ltac:(lra)) as H2.
  pose proof (Qpower_pos_lt_base _ _ (Qden e2) H1 HA) as HA'.
  pose proof (Qpower_pos_le_base _ _ (Qden e1) H2 HB) as HB'.
  rewrite <- !Qpower_mult in HA', HB'.
  rewrite (Z.mul_comm (Zpos (Qden e2)) (Zpos (Qden e1))) in HB'.
  assert (Hlt : (10 ^ (Qnum e2 * Zpos (Qden e1)) < 10 ^ (Qnum e1 * Zpos (Qden e2)))%Q) by lra.
  apply Qpower_lt_compat_l_inv in Hlt; [ | reflexivity ].
  unfold Qle in He. lia.
Qed.

Lemma pow10_le_val_iff (e v : Q) :
  pow10_le_val e v = true <-> (0 < v)%Q /\ (10 ^ Qnum e <= v ^ Zpos (Qden e))%Q.
Proof.
  unfold pow10_le_val. now rewrite andb_true_iff, Qlt_bool_iff, Qle_bool_iff.
Qed.

Lemma pow10_le_val_down (e1 e2 v : Q) :
  Qle_bool e1 e2 = true -> pow10_le_val e2 v = true -> pow10_le_val e1 v = true.
Proof.
  rewrite Qle_bool_iff, !pow10_le_val_iff. intros He [ Hv HB ]. split; [ exact Hv | ].
  destruct (Qlt_le_dec (v ^ Zpos (Qden e1)) (10 ^ Qnum e1)) as [ HA | H ]; [ | exact H ].
  destruct (pow10_gap v e1 e2 Hv He HA HB).
Qed.

Lemma val_below_pow10 (e1 e2 v : Q) :
  Qle_bool e1 e2 = true -> pow10_le_val e1 v = false -> val_le_pow10 v e2 = true.
Proof.
  rewrite Qle_bool_iff. intros He H. unfold val_le_pow10.
  apply orb_true_iff. rewrite !Qle_bool_iff.
  destruct (Qlt_le_dec 0 v) as [ Hv | Hv ]; [ right | now left ].
  destruct (Qlt_le_dec (10 ^ Qnum e2) (v ^ Zpos (Qden e2))) as [ HB | HB ]; [ | exact HB ].
  exfalso.
  destruct (Qlt_le_dec (v ^ Zpos (Qden e1)) (10 ^ Qnum e1)) as [ HA | HA ].
  - apply (pow10_gap v e1 e2 Hv He HA). lra.
  - assert (Ht : pow10_le_val e1 v = true) by (apply pow10_le_val_iff; auto).
    congruence.
Qed.

(** * Channel activity *)

Lemma sum_Z_cons (x : Z) (l : list Z) : sum_Z (x :: l) = x + sum_Z l.
Proof. reflexivity. Qed.

Lemma sum_Z_app (l1 l2 : list Z) : sum_Z (l1 ++ l2) = sum_Z l1 + sum_Z l2.
Proof.
  induction l1 as [ | x l1 IH ]; [ reflexivity | ].
  simpl app. rewrite !sum_Z_cons, IH. lia.
Qed.

Lemma sum_Z_perm (l1 l2 : list Z) : Permutation l1 l2 -> sum_Z l1 = sum_Z l2.
Proof.
  induction 1 as [ | x l1 l2 _ IH | x y l | l1 l2 l3 _ IH1 _ IH2 ];
    rewrite ?sum_Z_cons; lia.
Qed.

Lemma has_label_In (i : Z) (s : series) : has_label i s = true <-> In i (map fst s).
Proof.
  unfold has_label. rewrite existsb_exists, in_map_iff. split.
  - intros (kv & Hin & E). apply Z.eqb_eq in E. eauto.
  - intros (kv & E & Hin). exists kv. split; [ exact Hin | now apply Z.eqb_eq ].
Qed.

(** The fill adds the missing labels with value 0 and nothing else. *)
Lemma fill_missing_spec (labels : list Z) (s : series) :
  (forall c, In c (map fst (fill_missing labels s)) <-> In c (map fst s) \/ In c labels) /\
  sum_Z (map snd (fill_missing labels s)) = sum_Z (map snd s) /\
  (NoDup (map fst s) -> NoDup (map fst (fill_missing labels s))).
Proof.
  revert s. induction labels as [ | i labels IH ]; intro s.
  - simpl. repeat split; tauto.
  - simpl fill_missing. destruct (has_label i s) eqn:Hi.
    + destruct (IH s) as (Hk & Hs & Hn). apply has_label_In in Hi.
      split; [ | split; assumption ].
      intro c. rewrite Hk. simpl. intuition (subst; auto).
    + destruct (IH (s ++ [ (i, 0) ])) as (Hk & Hs & Hn).
      assert (Hout : ~ In i (map fst s)).
      { intro H. apply has_label_In in H. congruence. }
      split; [ | split ].
      * intro c. rewrite Hk, map_app, in_app_iff. simpl. tauto.
      * rewrite Hs, map_app, sum_Z_app. simpl. lia.
      * intro Hnd. apply Hn. rewrite map_app. simpl.
        apply NoDup_app; [ exact Hnd | constructor; [ tauto | constructor ] | ].
        intros x Hx [ <- | [] ]. contradiction.
Qed.

Lemma insert_asc_perm (x : Z * Z) (s : series) : Permutation (insert_asc x s) (x :: s).
Proof.
  induction s as [ | y s IH ]; simpl; [ reflexivity | ].
  destruct (fst y <? fst x); [ | reflexivity ].
  rewrite IH. apply perm_swap.
Qed.

Lemma sort_index_perm (s : series) : Permutation (sort_index s) s.
Proof.
  induction s as [ | x s IH ]; simpl; [ reflexivity | ].
  rewrite insert_asc_perm. now constructor.
Qed.

Lemma insert_asc_sorted (x : Z * Z) (s : series) :
  StronglySorted (fun a b => fst a <= fst b) s ->
  StronglySorted (fun a b => fst a <= fst b) (insert_asc x s).
Proof.
  induction 1 as [ | y s Hs IH Hy ]; simpl.
  - repeat constructor.
  - destruct (fst y <? fst x) eqn:E.
    + apply Z.ltb_lt in E. constructor; [ exact IH | ].
      rewrite Forall_forall in *. intros z Hz.
      apply (Permutation_in _ (insert_asc_perm x s)) in Hz.
      destruct Hz as [ <- | Hz ]; [ lia | now apply Hy ].
    + apply Z.ltb_ge in E. constructor; [ now constructor | ].
      constructor; [ exact E | ].
      rewrite Forall_forall in *. intros z Hz. specialize (Hy z Hz). lia.
Qed.

Lemma sort_index_sorted (s : series) :
  StronglySorted (fun a b => fst a <= fst b) (sort_index s).
Proof.
  induction s as [ | x s IH ]; simpl; [ constructor | now apply insert_asc_sorted ].
Qed.

(** The counts of [value_counts] add up to the number of values. *)
Lemma sum_except (u : list Z) (x : Z) (f : Z -> Z) :
  NoDup u ->
  sum_Z (map f u)
    = (if in_dec Z.eq_dec x u then f x else 0)
      + sum_Z (map f (filter (fun y => negb (Z.eqb x y)) u)).
Proof.
  induction 1 as [ | y u Hy Hnd IH ]; simpl map; simpl filter.
  - destruct (in_dec Z.eq_dec x []) as [ [] | _ ]. reflexivity.
  - rewrite sum_Z_cons, IH. destruct (Z.eqb x y) eqn:E.
    + apply Z.eqb_eq in E. subst y. simpl negb. cbv iota.
      destruct (in_dec Z.eq_dec x u) as [ Hin | _ ]; [ contradiction | ].
      destruct (in_dec Z.eq_dec x (x :: u)) as [ _ | Hout ]; [ lia | ].
      exfalso. apply Hout. now left.
    + apply Z.eqb_neq in E. simpl negb. cbv iota. simpl map. rewrite sum_Z_cons.
      destruct (in_dec Z.eq_dec x u) as [ Hin | Hout ];
        destruct (in_dec Z.eq_dec x (y :: u)) as [ Hin' | Hout' ]; try lia.
      * exfalso. apply Hout'. now right.
      * exfalso. destruct Hin' as [ -> | Hin' ]; [ now apply E | contradiction ].
Qed.

Lemma occurrences_cons (k x : Z) (l : list Z) :
  occurrences Z.eqb k (x :: l) = (if Z.eqb k x then 1 else 0) + occurrences Z.eqb k l.
Proof.
  unfold occurrences. simpl filter.
  destruct (Z.eqb k x); [ simpl List.length; rewrite Nat2Z.inj_succ | ]; lia.
Qed.

Lemma value_counts_total (l : list Z) :
  sum_Z (map snd (value_counts_unsorted Z.eqb l)) = Z.of_nat (List.length l).
Proof.
  unfold value_counts_unsorted. rewrite map_map. simpl.
  induction l as [ | x t IH ]; [ reflexivity | ].
  simpl unique. simpl map. rewrite sum_Z_cons, occurrences_cons, Z.eqb_refl.
  rewrite (map_ext_in (fun k => occurrences Z.eqb k (x :: t)) (fun k => occurrences Z.eqb k t)).
  - rewrite (sum_except (unique Z.eqb t) x) in IH by apply (unique_NoDup Z.eqb Z.eqb_eq).
    destruct (in_dec Z.eq_dec x (unique Z.eqb t)) as [ Hin | Hout ].
    + simpl List.length. rewrite Nat2Z.inj_succ. lia.
    + rewrite (occurrences_absent Z.eqb Z.eqb_eq x t).
      * simpl List.length. rewrite Nat2Z.inj_succ. lia.
      * intro H. apply Hout. now apply (unique_In Z.eqb Z.eqb_eq).
  - intros k Hk. apply filter_In in Hk. destruct Hk as [ _ Hk ].
    rewrite occurrences_cons. rewrite Z.eqb_sym.
    destruct (Z.eqb x k); [ discriminate | lia ].
Qed.

Lemma py_range_In (a b c : Z) : In c (py_range a b) <-> a <= c < b.
Proof.
  unfold py_range. rewrite in_map_iff. split.
  - intros (i & <- & Hi). apply in_seq in Hi. lia.
  - intro H. exists (Z.to_nat (c - a)). split; [ lia | ]. apply in_seq. lia.
Qed.

(** The Series after the fill and the sort, for any labels to fill. *)
Lemma fill_and_sort_spec (labels : list Z) (s0 : series) :
  NoDup (map fst s0) ->
  StronglySorted (fun a b => fst a <= fst b) (sort_index (fill_missing labels s0)) /\
  NoDup (map fst (sort_index (fill_missing labels s0))) /\
  (forall c, In c (map fst (sort_index (fill_missing labels s0)))
             <-> In c (map fst s0) \/ In c labels) /\
  sum_Z (map snd (sort_index (fill_missing labels s0))) = sum_Z (map snd s0).
Proof.
  intro Hnd. destruct (fill_missing_spec labels s0) as (Hk & Hs & Hn).
  pose proof (sort_index_perm (fill_missing labels s0)) as Hp.
  split; [ apply sort_index_sorted | ]. split; [ | split ].
  - apply (Permutation_NoDup (Permutation_map fst (Permutation_sym Hp))). now apply Hn.
  - intro c. rewrite <- Hk. split; apply Permutation_in; apply Permutation_map;
      [ exact Hp | exact (Permutation_sym Hp) ].
  - now rewrite (sum_Z_perm _ _ (Permutation_map snd Hp)).
Qed.

(** X1.  At the level "reads", on every RunTable: the labels of the Series are
    distinct, in increasing order, and are the channels 1 to 511 together
    with the channels of the reads; the values add up to the number of
    reads. *)
Theorem channels_reads_series (g : globals) (self : pycoQC) :
  exists s,
    channels_activity_series g self "reads" = Ok s /\
    StronglySorted (fun a b => fst a <= fst b) s /\
    NoDup (map fst s) /\
    (forall c, In c (map fst s) <->
               In c (map (fun x => channel (snd x)) (df self)) \/ 1 <= c < 512) /\
    sum_Z (map snd s) = Z.of_nat (List.length (df self)).
Proof.
  set (ch := map (fun x => channel (snd x)) (df self)).
  exists (sort_index (fill_missing (py_range 1 512) (value_counts_unsorted Z.eqb ch))).
  split; [ reflexivity | ].
  destruct (fill_and_sort_spec (py_range 1 512) (value_counts_unsorted Z.eqb ch))
    as (Hsorted & Hnd & Hk & Hs).
  { rewrite value_counts_unsorted_keys. apply (unique_NoDup Z.eqb Z.eqb_eq). }
  split; [ exact Hsorted | ]. split; [ exact Hnd | ]. split.
  - intro c. rewrite Hk, value_counts_unsorted_keys, (unique_In Z.eqb Z.eqb_eq), py_range_In.
    reflexivity.
  - rewrite Hs, value_counts_total. unfold ch. now rewrite length_map.
Qed.

(** C1 (the code departs from the claim).  The fill loop runs over
    [range(1, 512)], that is the channels 1 to 511: on a RunTable whose only
    read is on channel 1 the Series has 511 entries, labelled 1 to 511 in
    increasing order, with no entry for channel 512, and the reshape to the
    16 x 32 grid raises [ValueError]. *)
Theorem channels_activity_misses_channel_512 :
  exists s,
    channels_activity_series None run_half_hour "reads" = Ok s /\
    List.length s = 511%nat /\
    map fst s = py_range 1 512 /\
    has_label 512 s = false /\
    sum_Z (map snd s) = total_reads run_half_hour /\
    channels_activity None run_half_hour "reads" = Raise ValueError.
Proof.
  eexists. split; [ reflexivity | ]. vm_compute. repeat split; reflexivity.
Qed.

(** * The grid of channels *)

Lemma fill_missing_entries (labels : list Z) (s : series) (c v : Z) :
  In (c, v) (fill_missing labels s) ->
  In (c, v) s \/ (v = 0 /\ ~ In c (map fst s)).
Proof.
  revert s. induction labels as [ | i labels IH ]; intros s H; [ now left | ].
  simpl fill_missing in H. destruct (has_label i s) eqn:Hi; [ now apply IH | ].
  apply IH in H. rewrite map_app, !in_app_iff in H. simpl in H.
  assert (Hout : ~ In i (map fst s)).
  { intro Hin. apply has_label_In in Hin. congruence. }
  destruct H as [ [ H | [ H | [] ] ] | [ H0 H ] ]; [ now left | | right; tauto ].
  injection H as <- <-. now right.
Qed.

(** A Series whose values are a function of the labels is still one after
    the fill and the sort, when the function is 0 off the labels. *)
Lemma filled_series_is_table (labels : list Z) (s0 : series) (f : Z -> Z) :
  (forall c v, In (c, v) s0 -> v = f c) ->
  (forall c, ~ In c (map fst s0) -> f c = 0) ->
  sort_index (fill_missing labels s0)
    = map (fun c => (c, f c)) (map fst (sort_index (fill_missing labels s0))).
Proof.
  intros Hin Hout. rewrite map_map. symmetry. erewrite map_ext_in; [ apply map_id | ].
  intros [ c v ] H. simpl. f_equal.
  apply (Permutation_in _ (sort_index_perm _)) in H.
  apply fill_missing_entries in H. destruct H as [ H | [ -> H ] ].
  - symmetry. now apply Hin.
  - now apply Hout.
Qed.

Lemma sorted_keys_strict (s : series) :
  StronglySorted (fun a b => fst a <= fst b) s -> NoDup (map fst s) ->
  StronglySorted Z.lt (map fst s).
Proof.
  induction 1 as [ | x s Hs IH Hx ]; simpl; intro Hnd; [ constructor | ].
  inversion Hnd as [ | ? ? Hnx Hnd' ]; subst. constructor; [ now apply IH | ].
  rewrite Forall_forall in *. intros k Hk.
  apply in_map_iff in Hk. destruct Hk as (y & <- & Hy).
  specialize (Hx y Hy).
  assert (fst x <> fst y); [ | lia ].
  intro E. apply Hnx. rewrite E. now apply in_map.
Qed.

(** Two increasing lists with the same elements are the same list. *)
Lemma increasing_lists_equal (l l' : list Z) :
  StronglySorted Z.lt l -> StronglySorted Z.lt l' ->
  (forall c, In c l <-> In c l') -> l = l'.
Proof.
  intro Hl. revert l'. induction Hl as [ | x l Hl IH Hx ]; intros l' Hl' Hin.
  - destruct l' as [ | y l' ]; [ reflexivity | ].
    exfalso. apply (proj2 (Hin y)). now left.
  - destruct Hl' as [ | y l' Hl' Hy ].
    + exfalso. apply (proj1 (Hin x)). now left.
    + rewrite Forall_forall in Hx, Hy.
      assert (Exy : x = y).
      { destruct (proj1 (Hin x) (or_introl eq_refl)) as [ E | Hxl' ]; [ now symmetry | ].
        destruct (proj2 (Hin y) (or_introl eq_refl)) as [ E | Hyl ]; [ exact E | ].
        specialize (Hx y Hyl). specialize (Hy x Hxl'). lia. }
      subst y. f_equal. apply IH; [ exact Hl' | ].
      intro c. split; intro Hc.
      * destruct (proj1 (Hin c) (or_intror Hc)) as [ E | H ]; [ | exact H ].
        subst c. specialize (Hx x Hc). lia.
      * destruct (proj2 (Hin c) (or_intror Hc)) as [ E | H ]; [ | exact H ].
        subst c. specialize (Hy x Hc). lia.
Qed.

Lemma py_range_increasing (a b : Z) : StronglySorted Z.lt (py_range a b).
Proof.
  unfold py_range. generalize (Z.to_nat (b - a)) as n. generalize 0%nat as k.
  intros k n. revert k. induction n as [ | n IH ]; intro k; simpl; constructor.
  - apply IH.
  - rewrite Forall_forall. intros c Hc. apply in_map_iff in Hc.
    destruct Hc as (i & <- & Hi). apply in_seq in Hi. lia.
Qed.

Lemma py_range_length (a b : Z) : List.length (py_range a b) = Z.to_nat (b - a).
Proof. unfold py_range. now rewrite length_map, length_seq. Qed.

Lemma py_range_nth (a b : Z) (k : nat) (d : Z) :
  (k < Z.to_nat (b - a))%nat -> nth k (py_range a b) d = a + Z.of_nat k.
Proof. intro H. unfold py_range. now rewrite nth_map_seq. Qed.

(** Row [i], column [j] of the reshaped array is value [i * c + j]. *)
Lemma chunks_nth (r c : nat) (v : list Z) (i j : nat) (d : Z) :
  (i < r)%nat -> (j < c)%nat ->
  nth j (nth i (chunks r c v) []) d = nth (i * c + j) v d.
Proof.
  revert v i. induction r as [ | r IH ]; intros v i Hi Hj; [ lia | ].
  destruct i as [ | i ]; simpl chunks; cbn [nth].
  - rewrite nth_firstn. destruct (Nat.ltb_spec j c); [ reflexivity | lia ].
  - rewrite IH by lia. rewrite nth_skipn. f_equal. lia.
Qed.

Lemma chunks_length (r c : nat) (v : list Z) : List.length (chunks r c v) = r.
Proof.
  revert v. induction r as [ | r IH ]; intro v; simpl; [ reflexivity | now rewrite IH ].
Qed.

(** The Series of a level whose values are [f] of the channel, for channels
    within 1 to 512: with a read on channel 512 it is the table of [f] over
    1 to 512, and without one the table over 1 to 511. *)
Lemma channel_series_table (s0 : series) (ch : list Z) (f : Z -> Z) :
  NoDup (map fst s0) ->
  (forall c, In c (map fst s0) <-> In c ch) ->
  (forall c v, In (c, v) s0 -> v = f c) ->
  (forall c, ~ In c ch -> f c = 0) ->
  (forall c, In c ch -> 1 <= c <= 512) ->
  sort_index (fill_missing (py_range 1 512) s0)
    = map (fun c => (c, f c)) (py_range 1 (if in_dec Z.eq_dec 512 ch then 513 else 512)).
Proof.
  intros Hnd Hkeys Hval Hzero Hrange.
  rewrite (filled_series_is_table _ s0 f Hval).
  2:{ intros c Hc. apply Hzero. now rewrite <- Hkeys. }
  f_equal.
  destruct (fill_and_sort_spec (py_range 1 512) s0 Hnd) as (Hsorted & Hnd' & Hk & _).
  apply increasing_lists_equal.
  - now apply sorted_keys_strict.
  - apply py_range_increasing.
  - intro c. rewrite Hk, Hkeys, !py_range_In.
    destruct (in_dec Z.eq_dec 512 ch) as [ H512 | H512 ]; split.
    + intros [ H | H ]; [ apply Hrange in H | ]; lia.
    + intro H. destruct (Z.eq_dec c 512) as [ -> | ]; [ now left | right; lia ].
    + intros [ H | H ]; [ | lia ].
      pose proof (Hrange c H). destruct (Z.eq_dec c 512) as [ -> | ]; [ contradiction | lia ].
    + intro H. now right.
Qed.

(** The array of a table over the channels 1 to 512. *)
Lemma grid_of_table (f : Z -> Z) :
  exists a,
    reshape 16 32 (map snd (map (fun c => (c, f c)) (py_range 1 513))) = Ok a /\
    List.length a = 16%nat /\
    forall i j, (i < 16)%nat -> (j < 32)%nat ->
      nth j (nth i a []) 0 = f (Z.of_nat (32 * i + j) + 1).
Proof.
  rewrite map_map. cbn [snd]. unfold reshape.
  rewrite length_map, py_range_length.
  change (Nat.eqb (Z.to_nat (513 - 1)) (16 * 32)) with true. cbv iota.
  eexists. split; [ reflexivity | ]. split; [ apply chunks_length | ].
  intros i j Hi Hj. rewrite chunks_nth by assumption.
  rewrite (nth_indep _ 0 (f 0)).
  2:{ rewrite length_map, py_range_length. change (Z.to_nat (513 - 1)) with 512%nat. lia. }
  rewrite map_nth, py_range_nth.
  2:{ change (Z.to_nat (513 - 1)) with 512%nat. lia. }
  f_equal. lia.
Qed.

Lemma short_table_is_refused (f : Z -> Z) :
  reshape 16 32 (map snd (map (fun c => (c, f c)) (py_range 1 512))) = Raise ValueError.
Proof.
  unfold reshape. rewrite !length_map, py_range_length. reflexivity.
Qed.

Lemma channels_activity_series_reads (g : globals) (self : pycoQC) :
  channels_activity_series g self "reads"
  = Ok (sort_index (fill_missing (py_range 1 512)
                      (value_counts_unsorted Z.eqb (channels (df self))))).
Proof. reflexivity. Qed.

(** X6.  At the level "reads", when every read is on a channel from 1 to
    512: with a read on channel 512, [channels_activity] succeeds, the
    Series gives every channel from 1 to 512, in order, its number of reads,
    and cell (i, j) of the 16 x 32 array is the number of reads of channel
    [32 * i + j + 1]; without a read on channel 512 it raises
    [ValueError]. *)
Theorem channels_reads_grid (g : globals) (self : pycoQC)
    (Hrange : forall c, In c (channels (df self)) -> 1 <= c <= 512) :
  (In 512 (channels (df self)) ->
   exists a,
     channels_activity g self "reads"
     = Ok (map (fun c => (c, occurrences Z.eqb c (channels (df self)))) (py_range 1 513), a) /\
     List.length a = 16%nat /\
     forall i j, (i < 16)%nat -> (j < 32)%nat ->
       nth j (nth i a []) 0
       = occurrences Z.eqb (Z.of_nat (32 * i + j) + 1) (channels (df self))) /\
  (~ In 512 (channels (df self)) ->
   channels_activity g self "reads" = Raise ValueError).
Proof.
  unfold channels_activity. rewrite channels_activity_series_reads. cbn [bind].
  set (ch := channels (df self)) in *.
  assert (Hs := channel_series_table (value_counts_unsorted Z.eqb ch) ch
                  (fun c => occurrences Z.eqb c ch)).
  rewrite Hs; clear Hs.
  - split; intro H512; destruct (in_dec Z.eq_dec 512 ch) as [ Hin | Hout ];
      try contradiction.
    + destruct (grid_of_table (fun c => occurrences Z.eqb c ch)) as (a & -> & Hlen & Hnth).
      exists a. cbn [bind]. auto.
    + now rewrite short_table_is_refused.
  - rewrite value_counts_unsorted_keys. apply (unique_NoDup Z.eqb Z.eqb_eq).
  - intro c. rewrite value_counts_unsorted_keys. apply (unique_In Z.eqb Z.eqb_eq).
  - intros c v H. apply (value_counts_unsorted_In Z.eqb Z.eqb_eq) in H. tauto.
  - intros c H. now apply (occurrences_absent Z.eqb Z.eqb_eq).
  - exact Hrange.
Qed.

Lemma channels_reads_grid_witness :
  (exists a,
     channels_activity None run_on_512 "reads"
     = Ok (map (fun c => (c, occurrences Z.eqb c (channels (df run_on_512))))
               (py_range 1 513), a) /\
     nth 31 (nth 15 a []) 0 = 1) /\
  channels_activity None run_half_hour "reads" = Raise ValueError.
Proof.
  split.
  - destruct (channels_reads_grid None run_on_512) as [ Hok _ ].
    + intros c H. simpl in H. destruct H as [ <- | [] ]. lia.
    + destruct Hok as (a & Ha & _ & Hnth); [ simpl; now left | ].
      exists a. split; [ exact Ha | ].
      rewrite (Hnth 15%nat 31%nat) by lia. reflexivity.
  - apply channels_reads_grid.
    + intros c H. simpl in H. destruct H as [ <- | [] ]. lia.
    + intro H. simpl in H. destruct H as [ H | [] ]. discriminate H.
Defined.

Lemma column_total_cons (col : columns -> Z) (x : string * columns) (d : frame) :
  column_total col (x :: d) = col (snd x) + column_total col d.
Proof. reflexivity. Qed.

Lemma channel_total_cons (col : columns -> Z) (x : string * columns) (d : frame) (c : Z) :
  channel_total col (x :: d) c
  = (if Z.eqb c (channel (snd x)) then col (snd x) else 0) + channel_total col d c.
Proof.
  unfold channel_total. simpl filter.
  destruct (Z.eqb c (channel (snd x))); [ now rewrite column_total_cons | lia ].
Qed.

Lemma channel_total_absent (col : columns -> Z) (d : frame) (c : Z) :
  ~ In c (channels d) -> channel_total col d c = 0.
Proof.
  induction d as [ | x d IH ]; intro H; [ reflexivity | ].
  rewrite channel_total_cons.
  destruct (Z.eqb c (channel (snd x))) eqn:E.
  - apply Z.eqb_eq in E. exfalso. apply H. left. now symmetry.
  - rewrite IH; [ reflexivity | ]. intro Hc. apply H. now right.
Qed.

(** The sums of the groups add up to the sum of the column. *)
Lemma group_totals (col : columns -> Z) (d : frame) :
  sum_Z (map (channel_total col d) (unique Z.eqb (channels d))) = column_total col d.
Proof.
  induction d as [ | x d IH ]; [ reflexivity | ].
  change (channels (x :: d)) with (channel (snd x) :: channels d).
  simpl unique. simpl map. rewrite sum_Z_cons, channel_total_cons, Z.eqb_refl.
  rewrite (map_ext_in (channel_total col (x :: d)) (channel_total col d)).
  - rewrite (sum_except (unique Z.eqb (channels d)) (channel (snd x))) in IH
      by apply (unique_NoDup Z.eqb Z.eqb_eq).
    rewrite column_total_cons.
    destruct (in_dec Z.eq_dec (channel (snd x)) (unique Z.eqb (channels d))) as [ Hin | Hout ].
    + lia.
    + rewrite (channel_total_absent col d (channel (snd x))); [ lia | ].
      intro H. apply Hout. now apply (unique_In Z.eqb Z.eqb_eq).
  - intros k Hk. apply filter_In in Hk. destruct Hk as [ _ Hk ].
    rewrite channel_total_cons, Z.eqb_sym.
    destruct (Z.eqb (channel (snd x)) k); [ discriminate | lia ].
Qed.

(** ** int64 sums *)

Lemma wrap64_small (z : Z) : - 2 ^ 63 <= z < 2 ^ 63 -> wrap64 z = z.
Proof. intro H. unfold wrap64. rewrite Z.mod_small; lia. Qed.

Lemma wrap64_add (a b : Z) : wrap64 (wrap64 a + b) = wrap64 (a + b).
Proof.
  unfold wrap64. f_equal.
  replace ((a + 2 ^ 63) mod 2 ^ 64 - 2 ^ 63 + b + 2 ^ 63) with ((a + 2 ^ 63) mod 2 ^ 64 + b)
    by lia.
  rewrite Z.add_mod_idemp_l by lia. f_equal. lia.
Qed.

(** The int64 sum is the sum modulo [2 ^ 64]. *)
Lemma sum_int64_spec (l : list Z) : sum_int64 l = wrap64 (sum_Z l).
Proof.
  unfold sum_int64. change 0 with (wrap64 0) at 1.
  replace (sum_Z l) with (0 + sum_Z l) by lia. generalize 0 as acc.
  induction l as [ | x l IH ]; intro acc.
  - simpl. f_equal. lia.
  - cbn [fold_left]. rewrite wrap64_add, IH, sum_Z_cons. f_equal. lia.
Qed.

(** The total of a channel is a part of the total of the column. *)
Lemma channel_total_bounds (col : columns -> Z) (d : frame) (c : Z) :
  (forall x, In x d -> 0 <= col (snd x)) ->
  0 <= channel_total col d c <= column_total col d.
Proof.
  intro Hpos. induction d as [ | x d IH ]; [ unfold channel_total, column_total; simpl; lia | ].
  rewrite channel_total_cons, column_total_cons.
  specialize (Hpos x (or_introl eq_refl)) as Hx.
  assert (H : 0 <= channel_total col d c <= column_total col d).
  { apply IH. intros y Hy. apply Hpos. now right. }
  destruct (Z.eqb c (channel (snd x))); lia.
Qed.

(** The exact totals of the channels 1 to 512 add up to the total of the
    column when every read is on one of these channels. *)
Lemma channel_totals_add_up (col : columns -> Z) (d : frame) :
  (forall c, In c (channels d) -> 1 <= c <= 512) ->
  sum_Z (map (channel_total col d)
             (py_range 1 (if in_dec Z.eq_dec 512 (channels d) then 513 else 512)))
  = column_total col d.
Proof.
  intro Hrange.
  set (s0 := map (fun c => (c, channel_total col d c)) (unique Z.eqb (channels d))).
  assert (Hk : map fst s0 = unique Z.eqb (channels d)).
  { unfold s0. rewrite map_map. apply map_id. }
  assert (Hnd : NoDup (map fst s0)).
  { rewrite Hk. apply (unique_NoDup Z.eqb Z.eqb_eq). }
  assert (Hs := channel_series_table s0 (channels d) (channel_total col d) Hnd).
  destruct (fill_and_sort_spec (py_range 1 512) s0 Hnd) as (_ & _ & _ & Hsum).
  rewrite Hs in Hsum.
  - rewrite map_map in Hsum. cbn [snd] in Hsum. etransitivity; [ exact Hsum | ].
    unfold s0. rewrite map_map. cbn [snd]. apply group_totals.
  - intro c. rewrite Hk. apply (unique_In Z.eqb Z.eqb_eq).
  - intros c v H. unfold s0 in H. apply in_map_iff in H.
    destruct H as (k & E & _). now injection E as <- <-.
  - apply channel_total_absent.
  - exact Hrange.
Qed.

Lemma groupby_channel_sum_spec (col : columns -> Z) (d : frame) :
  NoDup (map fst (groupby_channel_sum col d)) /\
  (forall c, In c (map fst (groupby_channel_sum col d)) <-> In c (channels d)) /\
  (forall c v, In (c, v) (groupby_channel_sum col d) -> v = wrap64 (channel_total col d c)).
Proof.
  unfold groupby_channel_sum. fold (channels d).
  set (m := map (fun c => (c, sum_int64 (map (fun x => col (snd x))
                                            (filter (fun x => Z.eqb c (channel (snd x))) d))))
                (unique Z.eqb (channels d))).
  assert (Hm : map fst m = unique Z.eqb (channels d)).
  { unfold m. rewrite map_map. apply map_id. }
  pose proof (sort_index_perm m) as Hp.
  split; [ | split ].
  - apply (Permutation_NoDup (Permutation_map fst (Permutation_sym Hp))).
    rewrite Hm. apply (unique_NoDup Z.eqb Z.eqb_eq).
  - intro c. rewrite <- (unique_In Z.eqb Z.eqb_eq c (channels d)), <- Hm.
    split; apply Permutation_in; apply Permutation_map;
      [ exact Hp | exact (Permutation_sym Hp) ].
  - intros c v H. apply (Permutation_in _ Hp) in H. unfold m in H.
    apply in_map_iff in H. destruct H as (k & E & _). injection E as <- <-.
    apply sum_int64_spec.
Qed.

(** X7.  At the levels "bases" and "events", with the name [n] bound,
    every read of the frame of [n] on a channel from 1 to 512, no negative
    value in the column ([sequence_length_template] or [num_events]) and a
    total of the column below [2 ^ 53] (no sum wraps around or is rounded):
    with a read on channel 512, [channels_activity] succeeds, the Series
    gives every channel from 1 to 512, in order, the sum of the column over
    the reads of that channel in the frame of [n], whatever the receiver is;
    the values add up to the sum of the column over that frame, and cell
    (i, j) of the array is the value of channel [32 * i + j + 1].  Without a
    read on channel 512 it raises [ValueError]. *)
Theorem channels_sums_grid (n self : pycoQC) (level : string) (col : columns -> Z)
    (Hlevel : (level = "bases"%string /\ col = sequence_length_template) \/
              (level = "events"%string /\ col = num_events))
    (Hrange : forall c, In c (channels (df n)) -> 1 <= c <= 512)
    (Hpos : forall x, In x (df n) -> 0 <= col (snd x))
    (Htotal : column_total col (df n) < 2 ^ 53) :
  (In 512 (channels (df n)) ->
   exists a,
     channels_activity (Some n) self level
     = Ok (map (fun c => (c, channel_total col (df n) c)) (py_range 1 513), a) /\
     sum_Z (map (channel_total col (df n)) (py_range 1 513)) = column_total col (df n) /\
     List.length a = 16%nat /\
     forall i j, (i < 16)%nat -> (j < 32)%nat ->
       nth j (nth i a []) 0 = channel_total col (df n) (Z.of_nat (32 * i + j) + 1)) /\
  (~ In 512 (channels (df n)) ->
   channels_activity (Some n) self level = Raise ValueError).
Proof.
  assert (Hser : channels_activity_series (Some n) self level
                 = Ok (sort_index (fill_missing (py_range 1 512)
                                     (groupby_channel_sum col (df n))))).
  { destruct Hlevel as [ [ -> -> ] | [ -> -> ] ]; reflexivity. }
  unfold channels_activity. rewrite Hser. cbn [bind]. clear Hser Hlevel.
  destruct (groupby_channel_sum_spec col (df n)) as (Hnd & Hkeys & Hval).
  assert (Hexact : forall c, wrap64 (channel_total col (df n) c) = channel_total col (df n) c).
  { intro c. apply wrap64_small. pose proof (channel_total_bounds col (df n) c Hpos). lia. }
  assert (Hs := channel_series_table (groupby_channel_sum col (df n)) (channels (df n))
                  (channel_total col (df n)) Hnd Hkeys).
  rewrite Hs; clear Hs.
  - pose proof (channel_totals_add_up col (df n) Hrange) as Hsum.
    split; intro H512; destruct (in_dec Z.eq_dec 512 (channels (df n))) as [ Hin | Hout ];
      try contradiction.
    + destruct (grid_of_table (channel_total col (df n))) as (a & -> & Hlen & Hnth).
      exists a. cbn [bind]. auto.
    + now rewrite short_table_is_refused.
  - intros c v H. rewrite <- Hexact. now apply Hval.
  - apply channel_total_absent.
  - exact Hrange.
Qed.

Lemma channels_sums_grid_witness :
  (exists a,
     channels_activity (Some run_on_512) run_half_hour "bases"
     = Ok (map (fun c => (c, channel_total sequence_length_template (df run_on_512) c))
               (py_range 1 513), a) /\
     nth 31 (nth 15 a []) 0 = 700) /\
  channels_activity (Some run_other) run_half_hour "bases" = Raise ValueError.
Proof.
  split.
  - destruct (channels_sums_grid run_on_512 run_half_hour "bases" sequence_length_template)
      as [ Hok _ ].
    + left. split; reflexivity.
    + intros c H. simpl in H. destruct H as [ <- | [] ]. lia.
    + intros x H. simpl in H. destruct H as [ <- | [] ]. simpl. lia.
    + reflexivity.
    + destruct Hok as (a & Ha & _ & _ & Hnth); [ simpl; now left | ].
      exists a. split; [ exact Ha | ].
      rewrite (Hnth 15%nat 31%nat) by lia. reflexivity.
  - apply (channels_sums_grid run_other run_half_hour "bases" sequence_length_template).
    + left. split; reflexivity.
    + intros c H. simpl in H. destruct H as [ <- | [] ]. lia.
    + intros x H. simpl in H. destruct H as [ <- | [] ]. simpl. lia.
    + reflexivity.
    + intro H. simpl in H. destruct H as [ H | [] ]. discriminate H.
Defined.

(** * Aggregation over time *)

Lemma in_window_iff (t w e : Q) :
  in_window t w e = true <-> (t <= e)%Q /\ (e < float64 (t + w))%Q.
Proof.
  unfold in_window. now rewrite andb_true_iff, Qle_bool_iff, Qlt_bool_iff.
Qed.

(** The builtin [max] is one of the values and at least every value. *)
Lemma max_from_ge (x : Q) (l : list Q) :
  (x <= max_from x l)%Q /\ (forall y, In y l -> (y <= max_from x l)%Q).
Proof.
  revert x. induction l as [ | z l IH ]; intro x; simpl.
  - split; [ apply Qle_refl | tauto ].
  - destruct (Qlt_bool x z) eqn:E.
    + apply Qlt_bool_iff in E. destruct (IH z) as [ H1 H2 ].
      split; [ lra | ]. intros y [ <- | Hy ]; [ exact H1 | now apply H2 ].
    + assert (Hzx : (z <= x)%Q).
      { destruct (Qlt_le_dec x z) as [ Hlt | Hle ]; [ | exact Hle ].
        apply Qlt_bool_iff in Hlt. congruence. }
      destruct (IH x) as [ H1 H2 ].
      split; [ exact H1 | ]. intros y [ <- | Hy ]; [ lra | now apply H2 ].
Qed.

Lemma py_max_ge (l : list Q) (m : Q) :
  py_max l = Ok m -> forall y, In y l -> (y <= m)%Q.
Proof.
  destruct l as [ | x l ]; [ discriminate | ]. simpl. intro H. injection H as <-.
  destruct (max_from_ge x l) as [ H1 H2 ].
  intros y [ <- | Hy ]; [ exact H1 | now apply H2 ].
Qed.

Lemma max_from_In (x : Q) (l : list Q) : In (max_from x l) (x :: l).
Proof.
  revert x. induction l as [ | z l IH ]; intro x; simpl; [ now left | ].
  destruct (Qlt_bool x z).
  - right. apply IH.
  - destruct (IH x) as [ H | H ]; [ now left | right; now right ].
Qed.

Lemma py_max_In (l : list Q) (m : Q) : py_max l = Ok m -> In m l.
Proof.
  destruct l as [ | x l ]; [ discriminate | ]. simpl. intro H. injection H as <-.
  apply max_from_In.
Qed.

(** The latest end is a binary64 number. *)
Lemma latest_end_binary64 (d : frame) (m : Q) :
  py_max (map end_time d) = Ok m -> is_binary64 m.
Proof.
  intro H. apply py_max_In in H. apply in_map_iff in H. destruct H as (x & <- & _).
  apply float64_is_binary64.
Qed.

(** The windows of [time_windows]: as many as [np.arange] has values, the
    [i]-th from [window_start] holds the rows that end in it. *)
Lemma time_windows_Ok (d : frame) (w : Q) (ws : list (Q * frame)) :
  time_windows d w = Ok ws ->
  exists m,
    py_max (map end_time d) = Ok m /\ ~ (w == 0)%Q /\
    List.length ws = Z.to_nat (Qceiling (float64 (float64 (m - 0) / w))) /\
    ws = map (fun i => (window_start w i,
                        filter (fun x => in_window (window_start w i) w (end_time x)) d))
             (seq 0 (List.length ws)).
Proof.
  unfold time_windows. destruct (py_max (map end_time d)) as [ m | ]; [ | discriminate ].
  cbn [bind]. destruct (np_arange 0 m w) as [ ts | ] eqn:Hts; [ | discriminate ].
  cbn [bind]. intro H.
  assert (Hws : ws = map (fun t => (t, filter (fun x => in_window t w (end_time x)) d)) ts)
    by congruence.
  clear H. apply np_arange_Ok in Hts. destruct Hts as [ Hw Hts ].
  exists m. split; [ reflexivity | ]. split; [ exact Hw | ].
  rewrite Hws, Hts, !length_map, length_seq, map_map. split; reflexivity.
Qed.

(** The number of values of [np.arange] from 0, for binary64 arguments. *)
Lemma arange_length_from_zero (m w : Q) :
  is_binary64 m ->
  Qceiling (float64 (float64 (m - 0) / w)) = Qceiling (float64 (m / w)).
Proof.
  intro Hm. unfold is_binary64 in Hm. f_equal. apply float64_compat.
  assert (E0 : float64 (m - 0) = float64 m) by (apply float64_compat; ring).
  now rewrite E0, Hm.
Qed.

(** X14.  For a positive binary64 window size and fewer than [2 ^ 53]
    windows: there are [ceil(max(end_time) / win_size)] windows, the
    division rounded; window [i] starts at the rounded product
    [i * win_size]; the starts do not decrease, and none is after the latest
    end (the exact product is before it, its rounding can reach it). *)
Theorem time_windows_start_up_to_latest_end (d : frame) (w m : Q)
    (ws : list (Q * frame))
    (Hw : (0 < w)%Q) (Hbin : is_binary64 w)
    (Hws : time_windows d w = Ok ws)
    (Hm : py_max (map end_time d) = Ok m)
    (Hlen : Z.of_nat (List.length ws) < 2 ^ 53) :
  Z.of_nat (List.length ws) = Z.max 0 (Qceiling (float64 (m / w))) /\
  (forall i, (i < List.length ws)%nat ->
     fst (nth i ws (0%Q, [])) = float64 (inject_Z (Z.of_nat i) * w) /\
     (inject_Z (Z.of_nat i) * w < m)%Q /\
     (fst (nth i ws (0%Q, [])) <= m)%Q) /\
  (forall i j, (i <= j < List.length ws)%nat ->
     (fst (nth i ws (0%Q, [])) <= fst (nth j ws (0%Q, [])))%Q).
Proof.
  destruct (time_windows_Ok _ _ _ Hws) as (m' & Hm' & _ & Hn & E).
  assert (m' = m) by congruence. subst m'. clear Hm'.
  pose proof (latest_end_binary64 _ _ Hm) as Hmb.
  assert (Hstart : forall i, (i < List.length ws)%nat ->
            fst (nth i ws (0%Q, [])) = float64 (inject_Z (Z.of_nat i) * w)).
  { intros i Hi. rewrite E at 1. rewrite nth_map_seq by exact Hi. cbn [fst].
    unfold window_start. now apply arange_value_from_zero. }
  split; [ | split ].
  - rewrite Hn, (arange_length_from_zero m w Hmb). lia.
  - intros i Hi. split; [ now apply Hstart | ].
    rewrite (Hstart i Hi).
    apply (arange_from_zero_bound m w i Hw Hmb); lia.
  - intros i j Hij. rewrite !Hstart by lia. apply float64_le.
    apply Qmult_le_r; [ exact Hw | ]. rewrite <- Zle_Qle. lia.
Qed.

Lemma time_windows_start_up_to_latest_end_witness :
  Z.of_nat 2 = Z.max 0 (Qceiling (float64 ((1 # 2) / (1 # 4)))).
Proof.
  apply (time_windows_start_up_to_latest_end (df run_half_hour) (1 # 4) (1 # 2)
           [ (0%Q, []); (1 # 4, []) ]); vm_compute; reflexivity.
Defined.

(** ** Window sizes that are powers of two *)

Lemma is_binary64_compat (x y : Q) : (x == y)%Q -> is_binary64 x -> is_binary64 y.
Proof.
  intros E H. unfold is_binary64 in *. now rewrite <- (float64_compat _ _ E), H.
Qed.

Lemma pow2_binary64 (k : Z) : -1074 <= k -> is_binary64 (2 ^ k).
Proof.
  intro H. apply (is_binary64_compat (inject_Z 1 * 2 ^ k)); [ ring | ].
  apply float64_exact; [ reflexivity | exact H ].
Qed.

(** The product of an integer below [2 ^ 53] and a power of two is exact. *)
Lemma pow2_multiple_exact (k : Z) (i : nat) :
  -1074 <= k -> Z.of_nat i < 2 ^ 53 ->
  (float64 (inject_Z (Z.of_nat i) * 2 ^ k) == inject_Z (Z.of_nat i) * 2 ^ k)%Q.
Proof. intros Hk Hi. apply float64_exact; [ lia | exact Hk ]. Qed.

(** With a power of two as size, window [i] is exactly
    [[i * win_size, (i + 1) * win_size)]. *)
Lemma pow2_window (k : Z) (i : nat) (e : Q) :
  -1074 <= k -> Z.of_nat i + 1 < 2 ^ 53 ->
  (window_start (2 ^ k) i == inject_Z (Z.of_nat i) * 2 ^ k)%Q /\
  (in_window (window_start (2 ^ k) i) (2 ^ k) e = true <->
   (inject_Z (Z.of_nat i) * 2 ^ k <= e)%Q /\ (e < inject_Z (Z.of_nat i) * 2 ^ k + 2 ^ k)%Q).
Proof.
  intros Hk Hi.
  assert (Hs : (window_start (2 ^ k) i == inject_Z (Z.of_nat i) * 2 ^ k)%Q).
  { unfold window_start. rewrite (arange_value_from_zero _ _ (pow2_binary64 k Hk)).
    apply pow2_multiple_exact; [ exact Hk | lia ]. }
  split; [ exact Hs | ].
  assert (He : (float64 (window_start (2 ^ k) i + 2 ^ k)
                == inject_Z (Z.of_nat i) * 2 ^ k + 2 ^ k)%Q).
  { assert (E : (window_start (2 ^ k) i + 2 ^ k == inject_Z (Z.of_nat (S i)) * 2 ^ k)%Q).
    { rewrite Hs, Nat2Z.inj_succ. unfold Z.succ. rewrite inject_Z_plus. ring. }
    rewrite (float64_compat _ _ E), pow2_multiple_exact by lia.
    rewrite Nat2Z.inj_succ. unfold Z.succ. rewrite inject_Z_plus. ring. }
  rewrite in_window_iff, He, Hs. reflexivity.
Qed.

Lemma within_windows_iff (n : nat) (w : Q) (x : string * columns) :
  within_windows n w x = true
  <-> (0 <= end_time x)%Q /\ (end_time x < inject_Z (Z.of_nat n) * w)%Q.
Proof.
  unfold within_windows. now rewrite andb_true_iff, Qle_bool_iff, Qlt_bool_iff.
Qed.

(** X2.  For a window size that is a power of two (such as the default, a
    quarter of an hour) and fewer than [2 ^ 53] windows: a row is never in
    two windows, the rows of a window are rows of the RunTable, and a row
    whose end is not negative and is before the end of the last window is in
    one window. *)
Theorem time_windows_hold_each_row_at_most_once (d : frame) (k : Z)
    (ws : list (Q * frame)) (Hk : -1074 <= k)
    (Hws : time_windows d (2 ^ k) = Ok ws)
    (Hlen : Z.of_nat (List.length ws) < 2 ^ 53) :
  (forall i j x, (i < j < List.length ws)%nat ->
     In x (snd (nth i ws (0%Q, []))) -> ~ In x (snd (nth j ws (0%Q, [])))) /\
  (forall t f x, In (t, f) ws -> In x f -> In x d) /\
  (forall x, In x d -> (0 <= end_time x)%Q ->
     (end_time x < inject_Z (Z.of_nat (List.length ws)) * 2 ^ k)%Q ->
     exists t f, In (t, f) ws /\ In x f).
Proof.
  pose proof (pow2_pos k) as Hw. set (w := (2 ^ k)%Q) in *.
  destruct (time_windows_Ok _ _ _ Hws) as (m & _ & _ & _ & E).
  set (win := fun i : nat =>
                (window_start w i,
                 filter (fun x => in_window (window_start w i) w (end_time x)) d)) in E.
  assert (Hnth : forall i, (i < List.length ws)%nat -> nth i ws (0%Q, []) = win i).
  { intros i Hi. rewrite E at 1. now apply nth_map_seq. }
  assert (Hin : forall i x, (i < List.length ws)%nat ->
              (In x (snd (win i)) <->
               In x d /\ (inject_Z (Z.of_nat i) * w <= end_time x)%Q
                      /\ (end_time x < inject_Z (Z.of_nat i) * w + w)%Q)).
  { intros i x Hi. unfold win. cbn [snd]. rewrite filter_In.
    destruct (pow2_window k i (end_time x) Hk ltac:(lia)) as [ _ Hiff ].
    fold w in Hiff. rewrite Hiff. reflexivity. }
  split; [ | split ].
  - intros i j x Hij Hi Hj. rewrite Hnth in Hi, Hj by lia.
    apply Hin in Hi, Hj; try lia.
    destruct Hi as (_ & _ & Hi). destruct Hj as (_ & Hj & _).
    assert (Hle : (inject_Z (Z.of_nat i) + 1 <= inject_Z (Z.of_nat j))%Q).
    { change 1%Q with (inject_Z 1). rewrite <- inject_Z_plus, <- Zle_Qle. lia. }
    apply (Qmult_le_r _ _ w Hw) in Hle. lra.
  - intros t f x Htf Hx. rewrite E in Htf. apply in_map_iff in Htf.
    destruct Htf as (i & Ei & Hi). apply in_seq in Hi. change (win i = (t, f)) in Ei.
    assert (Hf : f = snd (win i)) by now rewrite Ei.
    rewrite Hf in Hx. apply Hin in Hx; [ tauto | lia ].
  - intros x Hx H0 Hlt.
    set (q := (end_time x / w)%Q).
    assert (Hq : (q * w == end_time x)%Q).
    { unfold q. field. intro H. rewrite H in Hw. apply (Qlt_irrefl 0 Hw). }
    assert (Hq0 : (0 <= q)%Q).
    { apply Qle_shift_div_l; [ exact Hw | lra ]. }
    assert (Hqn : (q < inject_Z (Z.of_nat (List.length ws)))%Q).
    { apply Qlt_shift_div_r; [ exact Hw | exact Hlt ]. }
    pose proof (Qfloor_le q) as Hfl. pose proof (Qlt_floor q) as Hfu.
    assert (Hf0 : 0 <= Qfloor q).
    { change 0 with (Qfloor (inject_Z 0)). apply Qfloor_resp_le. exact Hq0. }
    assert (Hfn : Qfloor q < Z.of_nat (List.length ws)).
    { rewrite Zlt_Qlt. lra. }
    set (i := Z.to_nat (Qfloor q)).
    assert (Hi : Z.of_nat i = Qfloor q) by (unfold i; lia).
    exists (fst (win i)), (snd (win i)). split.
    + rewrite E. apply in_map_iff. exists i. split; [ reflexivity | ].
      apply in_seq. lia.
    + apply Hin; [ lia | ]. rewrite Hi. split; [ exact Hx | ].
      rewrite inject_Z_plus in Hfu. change (inject_Z 1) with 1%Q in Hfu.
      assert (H1 : (inject_Z (Qfloor q) * w <= q * w)%Q) by (apply Qmult_le_r; assumption).
      assert (H2 : (q * w < (inject_Z (Qfloor q) + 1) * w)%Q) by (apply Qmult_lt_r; assumption).
      split; lra.
Qed.

Lemma time_windows_hold_each_row_at_most_once_witness :
  exists t f,
    In (t, f) [ (0%Q, df run_other) ] /\
    In ("r9"%string, mk_columns "B" 7 0 360 200 9 3) f.
Proof.
  assert (Hws : time_windows (df run_other) (2 ^ (-2)) = Ok [ (0%Q, df run_other) ])
    by (vm_compute; reflexivity).
  apply (proj2 (proj2 (time_windows_hold_each_row_at_most_once
                         (df run_other) (-2) [ (0%Q, df run_other) ]
                         ltac:(lia) Hws ltac:(vm_compute; reflexivity)))).
  - now left.
  - vm_compute. discriminate.
  - vm_compute. reflexivity.
Defined.

(** C2 (the code departs from the claim).  The windows start at the values
    of [np.arange(0, max(end_time), win_size)], which stop short of the
    maximum: with a window of a quarter of an hour, a read that ends at half
    an hour exactly, the maximum itself, has the windows [0, 1/4) and
    [1/4, 1/2) and falls in neither. *)
Theorem time_windows_drop_read_at_maximum :
  end_time (hd ("r1"%string, mk_columns "A" 1 0 1800 4500 5 10) (df run_half_hour)) = 1 # 2 /\
  time_windows (df run_half_hour) (1 # 4) = Ok [ (0%Q, []); (1 # 4, []) ] /\
  output_over_time (Some run_half_hour) run_half_hour "reads" (1 # 4)
    = Ok [ (0%Q, 0); (1 # 4, 0) ] /\
  (exists t, quality_over_time run_half_hour (1 # 4) = Ok t /\
             map (fun r => q_mean (snd r)) t = [ None; None ]).
Proof.
  split; [ reflexivity | ]. split; [ reflexivity | ]. split; [ reflexivity | ].
  eexists. split; reflexivity.
Qed.

(** C9 (the code departs from the claim).  [output_over_time] and the
    levels "bases" and "events" of [channels_activity] read the frame of the
    module-level name [n], not the one of the receiver: on the same receiver
    with the same arguments the result changes with the binding of [n], and
    is a [NameError] when [n] is unbound. *)
Theorem aggregation_reads_module_level_name :
  output_over_time (Some run_half_hour) run_half_hour "reads" (1 # 4)
    = Ok [ (0%Q, 0); (1 # 4, 0) ] /\
  output_over_time (Some run_other) run_half_hour "reads" (1 # 4) = Ok [ (0%Q, 1) ] /\
  output_over_time None run_half_hour "reads" (1 # 4) = Raise NameError /\
  channels_activity_series (Some run_half_hour) run_half_hour "bases"
    <> channels_activity_series (Some run_other) run_half_hour "bases" /\
  channels_activity_series None run_half_hour "events" = Raise NameError.
Proof.
  split; [ reflexivity | ]. split; [ reflexivity | ]. split; [ reflexivity | ].
  split; [ | reflexivity ].
  vm_compute. intro H. discriminate H.
Qed.

(** * Totals over the time windows *)

Lemma sum_Z_map_add {A : Type} (a b : A -> Z) (l : list A) :
  sum_Z (map (fun i => a i + b i) l) = sum_Z (map a l) + sum_Z (map b l).
Proof.
  induction l as [ | x l IH ]; [ reflexivity | ].
  simpl map. rewrite !sum_Z_cons, IH. lia.
Qed.

(** With a power of two as size, a row is in one of the first [n] windows
    exactly when it ends at or after 0 and before the end of the [n]-th, and
    then in one only. *)
Lemma window_indicator (k : Z) (x : string * columns) (gx : Z) (n : nat) :
  -1074 <= k -> Z.of_nat n < 2 ^ 53 ->
  sum_Z (map (fun i => if in_window (window_start (2 ^ k) i) (2 ^ k) (end_time x)
                       then gx else 0)
             (seq 0 n))
  = if within_windows n (2 ^ k) x then gx else 0.
Proof.
  intros Hk. pose proof (pow2_pos k) as Hw. set (w := (2 ^ k)%Q) in *.
  induction n as [ | n IH ]; intro Hn.
  - simpl. destruct (within_windows 0 w x) eqn:E; [ | reflexivity ].
    apply within_windows_iff in E. destruct E as [ E0 E1 ].
    change (inject_Z (Z.of_nat 0)) with 0%Q in E1. lra.
  - rewrite seq_S, map_app, sum_Z_app, IH by lia. cbn [map Nat.add]. rewrite sum_Z_cons.
    change (sum_Z []) with 0.
    assert (Hsn : (inject_Z (Z.of_nat (S n)) == inject_Z (Z.of_nat n) + 1)%Q).
    { rewrite Nat2Z.inj_succ. unfold Z.succ. rewrite inject_Z_plus. reflexivity. }
    assert (Hpos : (0 <= inject_Z (Z.of_nat n) * w)%Q).
    { apply Qmult_le_0_compat; [ | lra ].
      change 0%Q with (inject_Z 0). rewrite <- Zle_Qle. lia. }
    set (e := end_time x) in *. set (nw := (inject_Z (Z.of_nat n) * w)%Q) in *.
    assert (A1 : within_windows n w x = true <-> (0 <= e)%Q /\ (e < nw)%Q)
      by apply within_windows_iff.
    assert (A2 : in_window (window_start w n) w e = true <-> (nw <= e)%Q /\ (e < nw + w)%Q).
    { apply (pow2_window k n e Hk). lia. }
    assert (A3 : within_windows (S n) w x = true <-> (0 <= e)%Q /\ (e < nw + w)%Q).
    { rewrite within_windows_iff, Hsn. fold e. unfold nw.
      split; intros [ H1 H2 ]; split; lra. }
    destruct (Qlt_le_dec e 0) as [ Hneg | H0 ].
    { replace (within_windows n w x) with false
        by (symmetry; apply not_true_iff_false; rewrite A1; intros [ ? ? ]; lra).
      replace (in_window (window_start w n) w e) with false
        by (symmetry; apply not_true_iff_false; rewrite A2; intros [ ? ? ]; lra).
      replace (within_windows (S n) w x) with false
        by (symmetry; apply not_true_iff_false; rewrite A3; intros [ ? ? ]; lra).
      lia. }
    destruct (Qlt_le_dec e nw) as [ Hin | Hout ].
    { replace (within_windows n w x) with true by (symmetry; apply A1; split; lra).
      replace (in_window (window_start w n) w e) with false
        by (symmetry; apply not_true_iff_false; rewrite A2; intros [ ? ? ]; lra).
      replace (within_windows (S n) w x) with true by (symmetry; apply A3; split; lra).
      lia. }
    destruct (Qlt_le_dec e (nw + w)) as [ Hlast | Hafter ].
    { replace (within_windows n w x) with false
        by (symmetry; apply not_true_iff_false; rewrite A1; intros [ ? ? ]; lra).
      replace (in_window (window_start w n) w e) with true by (symmetry; apply A2; split; lra).
      replace (within_windows (S n) w x) with true by (symmetry; apply A3; split; lra).
      lia. }
    replace (within_windows n w x) with false
      by (symmetry; apply not_true_iff_false; rewrite A1; intros [ ? ? ]; lra).
    replace (in_window (window_start w n) w e) with false
      by (symmetry; apply not_true_iff_false; rewrite A2; intros [ ? ? ]; lra).
    replace (within_windows (S n) w x) with false
      by (symmetry; apply not_true_iff_false; rewrite A3; intros [ ? ? ]; lra).
    lia.
Qed.

(** The exact sums of a column over the windows add up to its sum over the
    rows that are within the windows. *)
Lemma windows_total (col : columns -> Z) (d : frame) (k : Z) (ws : list (Q * frame)) :
  -1074 <= k -> time_windows d (2 ^ k) = Ok ws -> Z.of_nat (List.length ws) < 2 ^ 53 ->
  sum_Z (map (fun win => column_total col (snd win)) ws)
  = column_total col (filter (within_windows (List.length ws) (2 ^ k)) d).
Proof.
  intros Hk Hws Hlen. destruct (time_windows_Ok _ _ _ Hws) as (m & _ & _ & _ & E).
  rewrite E at 1. rewrite map_map. cbn [snd].
  revert Hlen. generalize (List.length ws) as n. intros n Hn. clear Hws E ws m.
  induction d as [ | x d IH ].
  - simpl. induction (seq 0 n) as [ | i l IHl ]; [ reflexivity | ].
    simpl map. now rewrite sum_Z_cons, IHl.
  - rewrite (map_ext _ (fun i =>
               (if in_window (window_start (2 ^ k) i) (2 ^ k) (end_time x)
                then col (snd x) else 0)
               + column_total col
                   (filter (fun y => in_window (window_start (2 ^ k) i) (2 ^ k)
                                               (end_time y)) d))).
    + rewrite sum_Z_map_add, IH, (window_indicator k x _ n Hk Hn). simpl filter.
      destruct (within_windows n (2 ^ k) x); [ now rewrite column_total_cons | lia ].
    + intro i. simpl filter.
      destruct (in_window _ (2 ^ k) (end_time x)); [ now rewrite column_total_cons | lia ].
Qed.

Lemma length_as_total (d : frame) :
  Z.of_nat (List.length d) = column_total (fun _ => 1) d.
Proof.
  induction d as [ | x d IH ]; [ reflexivity | ].
  rewrite column_total_cons, <- IH. simpl List.length. lia.
Qed.

Lemma filter_all {A : Type} (f : A -> bool) (l : list A) :
  (forall x, In x l -> f x = true) -> filter f l = l.
Proof.
  induction l as [ | x l IH ]; intro H; [ reflexivity | ].
  simpl. rewrite (H x (or_introl eq_refl)), IH; [ reflexivity | ].
  intros y Hy. apply H. now right.
Qed.

(** The total of a column over some of the rows is a part of its total. *)
Lemma column_total_filter (col : columns -> Z) (f : string * columns -> bool) (d : frame) :
  (forall x, In x d -> 0 <= col (snd x)) ->
  0 <= column_total col (filter f d) <= column_total col d.
Proof.
  intro Hpos. induction d as [ | x d IH ]; [ unfold column_total; simpl; lia | ].
  specialize (Hpos x (or_introl eq_refl)) as Hx.
  assert (H : 0 <= column_total col (filter f d) <= column_total col d).
  { apply IH. intros y Hy. apply Hpos. now right. }
  simpl filter. destruct (f x); rewrite ?column_total_cons; lia.
Qed.

(** The int64 sum of a column over a window is its exact sum when the
    column has no negative value and a total below [2 ^ 63]. *)
Lemma window_sum_exact (col : columns -> Z) (f : string * columns -> bool) (d : frame) :
  (forall x, In x d -> 0 <= col (snd x)) -> column_total col d < 2 ^ 63 ->
  sum_int64 (map (fun x => col (snd x)) (filter f d)) = column_total col (filter f d).
Proof.
  intros Hpos Hlt. rewrite sum_int64_spec. apply wrap64_small.
  fold (column_total col (filter f d)).
  pose proof (column_total_filter col f d Hpos). lia.
Qed.

(** The columns of the table in terms of the rows within the windows. *)
Lemma output_table_sums (n self : pycoQC) (k : Z) (t : list (Q * output_row)) :
  -1074 <= k ->
  output_over_time_table (Some n) self (2 ^ k) = Ok t ->
  Z.of_nat (List.length t) < 2 ^ 53 ->
  (forall x, In x (df n) ->
     0 <= sequence_length_template (snd x) /\ 0 <= num_events (snd x)) ->
  column_total sequence_length_template (df n) < 2 ^ 63 ->
  column_total num_events (df n) < 2 ^ 63 ->
  sum_Z (map (fun r => reads (snd r)) t)
    = column_total (fun _ => 1) (filter (within_windows (List.length t) (2 ^ k)) (df n)) /\
  sum_Z (map (fun r => bases (snd r)) t)
    = column_total sequence_length_template
        (filter (within_windows (List.length t) (2 ^ k)) (df n)) /\
  sum_Z (map (fun r => events (snd r)) t)
    = column_total num_events (filter (within_windows (List.length t) (2 ^ k)) (df n)).
Proof.
  intros Hk Ht Hlen Hpos Hb He. unfold output_over_time_table in Ht.
  cbn [lookup_n bind] in Ht.
  destruct (time_windows (df n) (2 ^ k)) as [ ws | ] eqn:Hws; [ | discriminate ].
  cbn [bind] in Ht. injection Ht as <-.
  rewrite length_map in *. rewrite !map_map. cbn [snd reads bases events].
  rewrite <- !(windows_total _ _ _ _ Hk Hws Hlen).
  destruct (time_windows_Ok _ _ _ Hws) as (m & _ & _ & _ & E).
  assert (Hwin : forall win, In win ws -> exists f, snd win = filter f (df n)).
  { intros win Hin. rewrite E in Hin. apply in_map_iff in Hin.
    destruct Hin as (i & <- & _). cbn [snd]. eauto. }
  split; [ | split ].
  - f_equal. apply map_ext. intro win. apply length_as_total.
  - f_equal. apply map_ext_in. intros win Hin. destruct (Hwin win Hin) as (f & ->).
    apply window_sum_exact; [ | exact Hb ]. intros x Hx. now apply Hpos.
  - f_equal. apply map_ext_in. intros win Hin. destruct (Hwin win Hin) as (f & ->).
    apply window_sum_exact; [ | exact He ]. intros x Hx. now apply Hpos.
Qed.

(** X8.  With [n] bound, a window size that is a power of two, fewer than
    [2 ^ 53] windows, and no negative value in the columns
    [sequence_length_template] and [num_events], whose totals are below
    [2 ^ 53] (no sum wraps around or is rounded): the columns of the table of
    [output_over_time] add up to the totals over the reads of the frame of
    [n] that end at or after 0 and before the end of the last window: the
    number of those reads, the sum of their lengths and the sum of their
    events. *)
Theorem output_over_time_totals (n self : pycoQC) (k : Z) (t : list (Q * output_row))
    (Hk : -1074 <= k)
    (Ht : output_over_time_table (Some n) self (2 ^ k) = Ok t)
    (Hlen : Z.of_nat (List.length t) < 2 ^ 53)
    (Hpos : forall x, In x (df n) ->
              0 <= sequence_length_template (snd x) /\ 0 <= num_events (snd x))
    (Hbases : column_total sequence_length_template (df n) < 2 ^ 53)
    (Hevents : column_total num_events (df n) < 2 ^ 53) :
  sum_Z (map (fun r => reads (snd r)) t)
    = Z.of_nat (List.length (filter (within_windows (List.length t) (2 ^ k)) (df n))) /\
  sum_Z (map (fun r => bases (snd r)) t)
    = column_total sequence_length_template
        (filter (within_windows (List.length t) (2 ^ k)) (df n)) /\
  sum_Z (map (fun r => events (snd r)) t)
    = column_total num_events (filter (within_windows (List.length t) (2 ^ k)) (df n)).
Proof.
  destruct (output_table_sums n self k t Hk Ht Hlen Hpos ltac:(lia) ltac:(lia))
    as (H1 & H2 & H3).
  rewrite length_as_total. repeat split; assumption.
Qed.

Lemma output_over_time_totals_witness :
  sum_Z (map (fun r => bases (snd r)) [ (0%Q, mk_output_row 1 200 3) ])
  = column_total sequence_length_template
      (filter (within_windows 1 (2 ^ (-2))) (df run_other)).
Proof.
  assert (Ht : output_over_time_table (Some run_other) run_half_hour (2 ^ (-2))
               = Ok [ (0%Q, mk_output_row 1 200 3) ]) by (vm_compute; reflexivity).
  apply (output_over_time_totals run_other run_half_hour (-2) _ ltac:(lia) Ht).
  - vm_compute. reflexivity.
  - intros x Hx. simpl in Hx. destruct Hx as [ <- | [] ]. simpl. lia.
  - reflexivity.
  - reflexivity.
Defined.

(** Dividing a binary64 number by a power of two that is at most 1 is
    exact. *)
Lemma binary64_div_pow2 (m : Q) (k : Z) :
  is_binary64 m -> k <= 0 -> is_binary64 (m / 2 ^ k).
Proof.
  intros Hm Hk. destruct (binary64_repr m Hm) as (n & e & Hn & He & E).
  apply (is_binary64_compat (inject_Z n * 2 ^ (e - k))).
  - rewrite E. unfold Z.sub. rewrite pow2_plus, Qpower_opp. field.
    intro H. pose proof (pow2_pos k) as Hp. rewrite H in Hp. apply (Qlt_irrefl 0 Hp).
  - apply float64_exact; [ exact Hn | lia ].
Qed.

(** X9.  With [n] bound, a window size that is a power of two and at most
    1, no read that ends before 0, a latest end of at most [2 ^ 52] window
    sizes that is not a whole number of them, and no negative value in the
    columns [sequence_length_template] and [num_events], whose totals are
    below [2 ^ 53]: the table of [output_over_time] is computed and loses
    nothing: its columns add up to the number of reads of the frame of [n],
    to the sum of their lengths and to the sum of their events. *)
Theorem output_over_time_complete (n self : pycoQC) (k : Z) (m : Q)
    (Hk : -1074 <= k <= 0)
    (Hend : forall x, In x (df n) -> (0 <= end_time x)%Q)
    (Hm : py_max (map end_time (df n)) = Ok m)
    (Hbound : (m <= inject_Z (2 ^ 52) * 2 ^ k)%Q)
    (Hoff : forall j : Z, ~ (m == inject_Z j * 2 ^ k)%Q)
    (Hpos : forall x, In x (df n) ->
              0 <= sequence_length_template (snd x) /\ 0 <= num_events (snd x))
    (Hbases : column_total sequence_length_template (df n) < 2 ^ 53)
    (Hevents : column_total num_events (df n) < 2 ^ 53) :
  exists t,
    output_over_time_table (Some n) self (2 ^ k) = Ok t /\
    sum_Z (map (fun r => reads (snd r)) t) = Z.of_nat (List.length (df n)) /\
    sum_Z (map (fun r => bases (snd r)) t) = column_total sequence_length_template (df n) /\
    sum_Z (map (fun r => events (snd r)) t) = column_total num_events (df n).
Proof.
  pose proof (pow2_pos k) as Hw. set (w := (2 ^ k)%Q) in *.
  assert (Hw0 : ~ (w == 0)%Q) by (intro H; rewrite H in Hw; apply (Qlt_irrefl 0 Hw)).
  destruct (time_windows (df n) w) as [ ws | e ] eqn:Hws.
  2:{ exfalso. unfold time_windows in Hws. rewrite Hm in Hws. cbn [bind] in Hws.
      unfold np_arange in Hws. destruct (Qeq_bool w 0) eqn:E; [ | discriminate ].
      apply Qeq_bool_iff in E. contradiction. }
  destruct (time_windows_Ok _ _ _ Hws) as (m' & Hm' & _ & Hn & _).
  assert (m' = m) by congruence. subst m'. clear Hm'.
  pose proof (latest_end_binary64 _ _ Hm) as Hmb.
  rewrite (arange_length_from_zero m w Hmb) in Hn.
  assert (Hq : (float64 (m / w) == m / w)%Q).
  { apply (binary64_div_pow2 m k Hmb). lia. }
  rewrite (Qceiling_comp _ _ Hq) in Hn.
  set (c := Qceiling (m / w)) in *.
  pose proof (Qle_ceiling (m / w)) as Hc. fold c in Hc.
  assert (Hmw : (m / w * w == m)%Q) by (field; exact Hw0).
  assert (Hc53 : c <= 2 ^ 52).
  { rewrite <- (Qceiling_Z (2 ^ 52)). apply Qceiling_resp_le.
    apply Qle_shift_div_r; [ exact Hw | exact Hbound ]. }
  assert (Hlen : Z.of_nat (List.length ws) < 2 ^ 53) by (rewrite Hn; lia).
  set (t := map (fun win : Q * frame =>
                   (fst win,
                    mk_output_row (Z.of_nat (List.length (snd win)))
                      (sum_int64 (map (fun x => sequence_length_template (snd x)) (snd win)))
                      (sum_int64 (map (fun x => num_events (snd x)) (snd win))))) ws).
  assert (Ht : output_over_time_table (Some n) self w = Ok t).
  { unfold output_over_time_table. cbn [lookup_n bind]. rewrite Hws. reflexivity. }
  assert (Htl : List.length t = List.length ws) by (unfold t; apply length_map).
  exists t. split; [ exact Ht | ].
  destruct (output_table_sums n self k t ltac:(lia) Ht ltac:(rewrite Htl; exact Hlen)
              Hpos ltac:(lia) ltac:(lia)) as (H1 & H2 & H3).
  rewrite <- length_as_total in H1.
  assert (Hall : filter (within_windows (List.length t) w) (df n) = df n).
  { apply filter_all. intros x Hx. apply within_windows_iff.
    split; [ now apply Hend | ].
    assert (Hxm : (end_time x <= m)%Q).
    { apply (py_max_ge _ _ Hm). now apply in_map. }
    assert (Hm0 : (0 <= m)%Q) by (specialize (Hend x Hx); lra).
    assert (Hc0 : 0 <= c).
    { change 0 with (Qceiling (inject_Z 0)). apply Qceiling_resp_le.
      apply Qle_shift_div_l; [ exact Hw | ]. change (inject_Z 0) with 0%Q. lra. }
    rewrite Htl, Hn, Z2Nat.id by exact Hc0.
    assert (Hle : (m <= inject_Z c * w)%Q).
    { rewrite <- Hmw at 1. apply Qmult_le_r; assumption. }
    destruct (Qlt_le_dec m (inject_Z c * w)) as [ Hlt | Hge ]; [ lra | ].
    exfalso. apply (Hoff c). lra. }
  fold w in H1, H2, H3. rewrite Hall in H1, H2, H3. auto.
Qed.

Lemma output_over_time_complete_witness :
  exists t,
    output_over_time_table (Some run_other) run_half_hour (2 ^ (-2)) = Ok t /\
    sum_Z (map (fun r => bases (snd r)) t) = 200.
Proof.
  destruct (output_over_time_complete run_other run_half_hour (-2)
              (3602879701896397 # 36028797018963968))
    as (t & Ht & _ & H2 & _).
  - lia.
  - intros x Hx. simpl in Hx. destruct Hx as [ <- | [] ]. vm_compute. discriminate.
  - vm_compute. reflexivity.
  - vm_compute. discriminate.
  - intros j H. change (2 ^ (-2))%Q with (1 # 4) in H.
    unfold Qeq, Qmult, inject_Z in H. cbn [Qnum Qden] in H. lia.
  - intros x Hx. simpl in Hx. destruct Hx as [ <- | [] ]. simpl. lia.
  - reflexivity.
  - reflexivity.
  - exists t. split; [ exact Ht | exact H2 ].
Defined.

(** * Histograms *)

Lemma count_if_cons (f : Q -> bool) (v : Q) (a : list Q) :
  count_if f (v :: a) = (if f v then 1 else 0) + count_if f a.
Proof.
  unfold count_if. simpl filter.
  destruct (f v); [ simpl List.length; rewrite Nat2Z.inj_succ | ]; lia.
Qed.

(** Counting over two disjoint predicates. *)
Lemma count_if_split (f g h : Q -> bool) (a : list Q) :
  (forall v, h v = f v || g v) -> (forall v, f v = true -> g v = false) ->
  count_if f a + count_if g a = count_if h a.
Proof.
  intros Hh Hd. induction a as [ | v a IH ]; [ reflexivity | ].
  rewrite !count_if_cons, <- IH, Hh.
  specialize (Hd v). destruct (f v) eqn:F, (g v) eqn:G; cbv [orb]; lia.
Qed.

(** Values that satisfy [q] are all that a predicate below [q] counts. *)
Lemma count_if_filter (f q : Q -> bool) (a : list Q) :
  (forall v, f v = true -> q v = true) ->
  count_if f (filter q a) = count_if f a.
Proof.
  intro H. induction a as [ | v a IH ]; [ reflexivity | ].
  simpl. destruct (q v) eqn:E.
  - now rewrite !count_if_cons, IH.
  - rewrite count_if_cons, IH. destruct (f v) eqn:F; [ | reflexivity ].
    apply H in F. congruence.
Qed.

Lemma count_if_le (f : Q -> bool) (a : list Q) : count_if f a <= Z.of_nat (List.length a).
Proof.
  induction a as [ | v a IH ]; [ simpl; unfold count_if; simpl; lia | ].
  rewrite count_if_cons. simpl List.length. rewrite Nat2Z.inj_succ.
  destruct (f v); lia.
Qed.

Lemma count_if_lt (f : Q -> bool) (a : list Q) (v : Q) :
  In v a -> f v = false -> count_if f a < Z.of_nat (List.length a).
Proof.
  induction a as [ | u a IH ]; intros Hin Hf; [ destruct Hin | ].
  rewrite count_if_cons. simpl List.length. rewrite Nat2Z.inj_succ.
  destruct Hin as [ -> | Hin ].
  - rewrite Hf. pose proof (count_if_le f a). lia.
  - specialize (IH Hin Hf). destruct (f u); lia.
Qed.

Lemma last_cons_default {A : Type} (l : list A) (z x y : A) :
  last (z :: l) x = last (z :: l) y.
Proof.
  revert z. induction l as [ | w l IH ]; intro z; [ reflexivity | ].
  change (last (w :: l) x = last (w :: l) y). apply IH.
Qed.

Lemma last_cons_In {A : Type} (l : list A) (z d : A) : In (last (z :: l) d) (z :: l).
Proof.
  revert z. induction l as [ | w l IH ]; intro z; [ now left | ].
  right. change (In (last (w :: l) d) (w :: l)). apply IH.
Qed.

Section HistogramFacts.
Context {E : Type}.
Variable edge_le : E -> E -> bool.
Variable edge_le_val : E -> Q -> bool.
Variable val_le_edge : Q -> E -> bool.
Hypothesis edge_le_trans :
  forall a b c, edge_le a b = true -> edge_le b c = true -> edge_le a c = true.
Hypothesis edge_le_val_down :
  forall a b v, edge_le a b = true -> edge_le_val b v = true -> edge_le_val a v = true.
Hypothesis val_below_edge :
  forall a b v, edge_le a b = true -> edge_le_val a v = false -> val_le_edge v b = true.

Lemma monotone_last (x y : E) (e : list E) :
  monotone edge_le (x :: y :: e) = true -> edge_le x (last (y :: e) x) = true.
Proof.
  revert x y. induction e as [ | z e IH ]; intros x y H.
  - simpl in *. now rewrite andb_true_r in H.
  - change (monotone edge_le (x :: y :: z :: e))
      with (edge_le x y && monotone edge_le (y :: z :: e)) in H.
    apply andb_true_iff in H. destruct H as [ Hxy H ].
    apply (edge_le_trans _ y); [ exact Hxy | ].
    change (last (y :: z :: e) x) with (last (z :: e) x).
    rewrite (last_cons_default e z x y). now apply IH.
Qed.

(** The counts of all the bins add up to the number of values between the
    first and the last edge. *)
Lemma bin_counts_sum (a : list Q) (e : list E) :
  monotone edge_le e = true ->
  sum_Z (bin_counts edge_le_val val_le_edge a e)
    = count_if (in_edge_range edge_le_val val_le_edge e) a.
Proof.
  induction e as [ | lo e IH ]; intro Hm.
  - simpl. unfold count_if. now rewrite filter_false.
  - destruct e as [ | hi rest ].
    + simpl. unfold count_if. now rewrite filter_false.
    + destruct rest as [ | r rest ].
      * simpl. unfold in_last_bin. rewrite Z.add_0_r. reflexivity.
      * change (bin_counts edge_le_val val_le_edge a (lo :: hi :: r :: rest))
          with (count_if (in_bin edge_le_val lo hi) a
                :: bin_counts edge_le_val val_le_edge a (hi :: r :: rest)).
        pose proof (monotone_last _ _ _ Hm) as Hlast.
        change (monotone edge_le (lo :: hi :: r :: rest))
          with (edge_le lo hi && monotone edge_le (hi :: r :: rest)) in Hm.
        apply andb_true_iff in Hm. destruct Hm as [ Hlh Hm ].
        pose proof (monotone_last _ _ _ Hm) as Hlast'.
        rewrite sum_Z_cons, (IH Hm). apply count_if_split.
        -- intro v. unfold in_bin.
           change (in_edge_range edge_le_val val_le_edge (lo :: hi :: r :: rest) v)
             with (edge_le_val lo v && val_le_edge v (last (r :: rest) lo)).
           change (in_edge_range edge_le_val val_le_edge (hi :: r :: rest) v)
             with (edge_le_val hi v && val_le_edge v (last (r :: rest) hi)).
           rewrite (last_cons_default rest r lo hi).
           destruct (edge_le_val hi v) eqn:Hv.
           ++ rewrite (edge_le_val_down _ _ _ Hlh Hv). reflexivity.
           ++ rewrite (val_below_edge _ _ _ Hlast' Hv).
              destruct (edge_le_val lo v); reflexivity.
        -- intros v Hv. unfold in_bin in Hv. apply andb_true_iff in Hv.
           destruct Hv as [ _ Hv ].
           change (in_edge_range edge_le_val val_le_edge (hi :: r :: rest) v)
             with (edge_le_val hi v && val_le_edge v (last (r :: rest) hi)).
           destruct (edge_le_val hi v); [ discriminate | reflexivity ].
Qed.

(** A value outside the range of the edges is in no bin: the counts are
    those of the values inside the range alone. *)
Lemma bin_counts_inside (q : Q -> bool) (a : list Q) (e : list E) :
  monotone edge_le e = true ->
  (forall v, in_edge_range edge_le_val val_le_edge e v = true -> q v = true) ->
  bin_counts edge_le_val val_le_edge (filter q a) e
    = bin_counts edge_le_val val_le_edge a e.
Proof.
  induction e as [ | lo e IH ]; intros Hm Hq; [ reflexivity | ].
  destruct e as [ | hi rest ]; [ reflexivity | ].
  destruct rest as [ | r rest ].
  - simpl. f_equal. apply count_if_filter. exact Hq.
  - pose proof (monotone_last _ _ _ Hm) as Hlast.
    change (monotone edge_le (lo :: hi :: r :: rest))
      with (edge_le lo hi && monotone edge_le (hi :: r :: rest)) in Hm.
    apply andb_true_iff in Hm. destruct Hm as [ Hlh Hm ].
    pose proof (monotone_last _ _ _ Hm) as Hlast'.
    change (in_edge_range edge_le_val val_le_edge (lo :: hi :: r :: rest))
      with (fun v => edge_le_val lo v && val_le_edge v (last (r :: rest) lo)) in Hq.
    rewrite (last_cons_default rest r lo hi) in Hq.
    change (bin_counts edge_le_val val_le_edge (filter q a) (lo :: hi :: r :: rest))
      with (count_if (in_bin edge_le_val lo hi) (filter q a)
            :: bin_counts edge_le_val val_le_edge (filter q a) (hi :: r :: rest)).
    change (bin_counts edge_le_val val_le_edge a (lo :: hi :: r :: rest))
      with (count_if (in_bin edge_le_val lo hi) a
            :: bin_counts edge_le_val val_le_edge a (hi :: r :: rest)).
    f_equal.
    + apply count_if_filter. intros v Hv. apply Hq.
      unfold in_bin in Hv. apply andb_true_iff in Hv. destruct Hv as [ Hlo Hhi ].
      rewrite Hlo. apply negb_true_iff in Hhi.
      now rewrite (val_below_edge _ _ _ Hlast' Hhi).
    + apply (IH Hm). intros v Hv. apply Hq.
      change (in_edge_range edge_le_val val_le_edge (hi :: r :: rest) v)
        with (edge_le_val hi v && val_le_edge v (last (r :: rest) hi)) in Hv.
      apply andb_true_iff in Hv. destruct Hv as [ Hhi Hl ].
      now rewrite (edge_le_val_down _ _ _ Hlh Hhi), Hl.
Qed.
End HistogramFacts.

(** ** Rational edges *)

(** What the range of the edges is for rational edges. *)
Lemma in_edge_range_Q (e : list Q) (v : Q) :
  in_edge_range Qle_bool Qle_bool e v = true ->
  exists lo hi, In lo e /\ In hi e /\ (lo <= v)%Q /\ (v <= hi)%Q.
Proof.
  destruct e as [ | lo [ | hi rest ] ]; simpl; try discriminate.
  intro H. apply andb_true_iff in H. destruct H as [ Hlo Hhi ].
  apply Qle_bool_iff in Hlo. apply Qle_bool_iff in Hhi.
  exists lo. eexists. split; [ now left | ]. split; [ | split; [ exact Hlo | exact Hhi ] ].
  right. apply last_cons_In.
Qed.

Lemma plot_hist_counts (a : list Q) (b : bins) (hh : heights) :
  plot_hist a b false = Ok hh ->
  hh = Counts (counts_over b a) /\
  match b with
  | Linear e => monotone Qle_bool e = true
  | Log10 x => monotone Qle_bool x = true
  end.
Proof.
  unfold plot_hist, np_histogram, counts_over.
  destruct b as [ e | e ]; destruct (monotone Qle_bool e); simpl; try discriminate;
    (destruct e as [ | x e ]; [ destruct a as [ | v a ] | ]; simpl; intro H;
     try discriminate; injection H as <-; auto).
Qed.

(** The counts over the bins, in terms of the range of the edges. *)
Lemma counts_over_range (a : list Q) (b : bins) :
  match b with
  | Linear e => monotone Qle_bool e = true
  | Log10 x => monotone Qle_bool x = true
  end ->
  sum_Z (counts_over b a) = count_if (in_bins_range b) a /\
  counts_over b a = counts_over b (filter (in_bins_range b) a).
Proof.
  destruct b as [ e | x ]; intro Hm; unfold counts_over, in_bins_range; split.
  - apply (bin_counts_sum Qle_bool Qle_bool Qle_bool
             Qle_bool_trans Qle_bool_trans Qle_bool_below a e Hm).
  - symmetry.
    apply (bin_counts_inside Qle_bool Qle_bool Qle_bool
             Qle_bool_trans Qle_bool_trans Qle_bool_below _ a e Hm).
    auto.
  - apply (bin_counts_sum Qle_bool pow10_le_val val_le_pow10
             Qle_bool_trans pow10_le_val_down val_below_pow10 a x Hm).
  - symmetry.
    apply (bin_counts_inside Qle_bool pow10_le_val val_le_pow10
             Qle_bool_trans pow10_le_val_down val_below_pow10 _ a x Hm).
    auto.
Qed.






(** The read of 4500 bases of [run_half_hour] is within the bounds 0 and
    5000 and above the last edge, 4000: no bin holds it. *)
Example reads_len_last_edge_below_xmax :
  exists h,
    distribution Length run_half_hour 1000 0 (Some 5000%Q) false = Ok h /\
    hist_bins h = Linear [ 0; 1000; 2000; 3000; 4000 ]%Q /\
    hist_heights h = Counts [ 0; 0; 0; 0 ] /\
    count_if (in_bounds 0 5000) (field_values Length run_half_hour) = 1.
Proof.
  destruct (distribution Length run_half_hour 1000 0 (Some 5000%Q) false) as [ h | e ] eqn:E;
    vm_compute in E; [ | discriminate E ].
  injection E as <-. eexists. split; [ reflexivity | ]. repeat split.
Qed.

(** * Logarithmic edges *)











(** * The range of the logarithmic edges *)







(** * Import of the module *)

(** X12.  The module is imported without a word exactly when numpy, pylab,
    pandas and seaborn can be imported, [get_ipython] is bound and
    [IPython.core.display] can be imported.  Otherwise the import prints one
    line, which names the package of the first statement that failed, and
    ends in [NameError] (the handler's [sysexit] is unbound): outside
    IPython it does so even with every package installed. *)
Theorem import_needs_every_dependency (env : environment) :
  (import_module env = ([], Ok tt) <->
   has_numpy env && has_pylab env && has_pandas env && has_seaborn env
   && has_get_ipython env && has_ipython_display env = true) /\
  (import_module env <> ([], Ok tt) ->
   exists current,
     import_module env = ([ import_message current ], Raise NameError) /\
     exists before ok after,
       try_block env = before ++ (current, ok) :: after /\
       ok = false /\ forall s, In s before -> snd s = true) /\
  (has_numpy env && has_pylab env && has_pandas env && has_seaborn env = true ->
   has_get_ipython env = false ->
   import_module env = ([ import_message "Jupyter 4.2.0" ], Raise NameError)).
Proof.
  destruct env as [ a b c d e f ]. unfold import_module, try_block.
  cbn [has_numpy has_pylab has_pandas has_seaborn has_get_ipython has_ipython_display].
  split; [ | split ].
  - destruct a, b, c, d, e, f; cbn [first_failure andb]; split; intro H;
      try reflexivity; discriminate H.
  - intro H.
    destruct a; [ destruct b; [ destruct c; [ destruct d; [ destruct e;
      [ destruct f; [ exfalso; now apply H | ] | ] | ] | ] | ] | ];
      cbn [first_failure]; eexists; (split; [ reflexivity | ]).
    + exists (firstn 5 (try_block (mk_environment true true true true true false))).
      do 2 eexists. cbn. split; [ reflexivity | ]. split; [ reflexivity | ].
      intros s Hs. repeat (destruct Hs as [ <- | Hs ]; [ reflexivity | ]). destruct Hs.
    + exists (firstn 4 (try_block (mk_environment true true true true false f))).
      do 2 eexists. cbn. split; [ reflexivity | ]. split; [ reflexivity | ].
      intros s Hs. repeat (destruct Hs as [ <- | Hs ]; [ reflexivity | ]). destruct Hs.
    + exists (firstn 3 (try_block (mk_environment true true true false e f))).
      do 2 eexists. cbn. split; [ reflexivity | ]. split; [ reflexivity | ].
      intros s Hs. repeat (destruct Hs as [ <- | Hs ]; [ reflexivity | ]). destruct Hs.
    + exists (firstn 2 (try_block (mk_environment true true false d e f))).
      do 2 eexists. cbn. split; [ reflexivity | ]. split; [ reflexivity | ].
      intros s Hs. repeat (destruct Hs as [ <- | Hs ]; [ reflexivity | ]). destruct Hs.
    + exists (firstn 1 (try_block (mk_environment true false c d e f))).
      do 2 eexists. cbn. split; [ reflexivity | ]. split; [ reflexivity | ].
      intros s Hs. repeat (destruct Hs as [ <- | Hs ]; [ reflexivity | ]). destruct Hs.
    + exists []. do 2 eexists. cbn. split; [ reflexivity | ]. split; [ reflexivity | ].
      intros s [].
  - intros H1 H2. subst e. destruct a, b, c, d; try discriminate H1. reflexivity.
Qed.

(** * The statistics of a window *)

Lemma min_from_le (x : Q) (l : list Q) :
  (min_from x l <= x)%Q /\ (forall y, In y l -> (min_from x l <= y)%Q).
Proof.
  revert x. induction l as [ | z l IH ]; intro x; simpl.
  - split; [ apply Qle_refl | tauto ].
  - destruct (Qlt_bool z x) eqn:E.
    + apply Qlt_bool_iff in E. destruct (IH z) as [ H1 H2 ].
      split; [ lra | ]. intros y [ <- | Hy ]; [ exact H1 | now apply H2 ].
    + assert (Hxz : (x <= z)%Q).
      { destruct (Qlt_le_dec z x) as [ Hlt | Hle ]; [ | exact Hle ].
        apply Qlt_bool_iff in Hlt. congruence. }
      destruct (IH x) as [ H1 H2 ].
      split; [ exact H1 | ]. intros y [ <- | Hy ]; [ lra | now apply H2 ].
Qed.

Lemma min_from_In (x : Q) (l : list Q) : In (min_from x l) (x :: l).
Proof.
  revert x. induction l as [ | z l IH ]; intro x; simpl; [ now left | ].
  destruct (Qlt_bool z x).
  - right. apply IH.
  - destruct (IH x) as [ H | H ]; [ now left | right; now right ].
Qed.

Lemma insert_Q_not_empty (x : Q) (s : list Q) : insert_Q x s <> [].
Proof. destruct s as [ | y s ]; simpl; [ | destruct (Qlt_bool y x) ]; discriminate. Qed.

(** The quantile of a Series with a value is a number. *)
Lemma series_quantile_defined (q x : Q) (l : list Q) :
  exists v, series_quantile q (x :: l) = Some v.
Proof.
  unfold series_quantile. cbn [sort_Q].
  pose proof (insert_Q_not_empty x (sort_Q l)) as H.
  destruct (insert_Q x (sort_Q l)); [ congruence | eauto ].
Qed.

(** X10.  The rows of the table of [quality_over_time] are those of the
    windows of [time_windows], in order.  A window without read has no
    number at all (the five statistics are NaN); a window with reads has
    five numbers, of which the minimum and the maximum are the lowest and
    the highest quality among the reads of the window. *)
Theorem quality_extremes_are_attained (self : pycoQC) (w : Q)
    (t : list (Q * quality_row)) (Ht : quality_over_time self w = Ok t) :
  exists ws,
    time_windows (df self) w = Ok ws /\ map fst t = map fst ws /\
    forall i, (i < List.length t)%nat ->
      let r := snd (nth i t (0%Q, mk_quality_row None None None None None)) in
      let q := map (fun x => mean_qscore_template (snd x)) (snd (nth i ws (0%Q, []))) in
      (q = [] /\ r = mk_quality_row None None None None None) \/
      (exists lo hi mean q1 q3,
         r = mk_quality_row (Some mean) (Some lo) (Some hi) (Some q1) (Some q3) /\
         In lo q /\ In hi q /\
         forall v, In v q -> (lo <= v)%Q /\ (v <= hi)%Q).
Proof.
  unfold quality_over_time in Ht.
  destruct (time_windows (df self) w) as [ ws | ]; [ | discriminate ].
  cbn [bind] in Ht. injection Ht as <-.
  exists ws. split; [ reflexivity | ]. split; [ now rewrite map_map | ].
  intros i Hi. rewrite length_map in Hi.
  set (g := fun win : Q * frame =>
              let sdf := map (fun x => mean_qscore_template (snd x)) (snd win) in
              (fst win,
               mk_quality_row (series_mean sdf) (series_min sdf) (series_max sdf)
                              (series_quantile (1 # 4) sdf) (series_quantile (3 # 4) sdf))).
  rewrite (nth_indep (map g ws) _ (g (0%Q, []))) by now rewrite length_map.
  rewrite map_nth. unfold g. cbn [snd fst]. cbv zeta.
  destruct (map (fun x => mean_qscore_template (snd x)) (snd (nth i ws (0%Q, []))))
    as [ | x l ].
  - left. split; reflexivity.
  - right.
    destruct (series_quantile_defined (1 # 4) x l) as (v1 & ->).
    destruct (series_quantile_defined (3 # 4) x l) as (v3 & ->).
    exists (min_from x l), (max_from x l). eexists. exists v1, v3.
    split; [ reflexivity | ]. split; [ apply min_from_In | ]. split; [ apply max_from_In | ].
    destruct (min_from_le x l) as [ Hm1 Hm2 ]. destruct (max_from_ge x l) as [ HM1 HM2 ].
    intros v [ <- | Hv ]; split; auto.
Qed.

Lemma quality_extremes_are_attained_witness :
  exists ws,
    time_windows (df run_other) (1 # 4) = Ok ws /\
    map fst [ (0%Q, mk_quality_row (Some 9%Q) (Some 9%Q) (Some 9%Q) (Some 9%Q) (Some 9%Q)) ]
    = map fst ws.
Proof.
  assert (Ht : quality_over_time run_other (1 # 4)
               = Ok [ (0%Q, mk_quality_row (Some 9%Q) (Some 9%Q) (Some 9%Q)
                                           (Some 9%Q) (Some 9%Q)) ])
    by (vm_compute; reflexivity).
  destruct (quality_extremes_are_attained run_other (1 # 4) _ Ht) as (ws & Hws & Hk & _).
  exists ws. split; [ exact Hws | exact Hk ].
Defined.

(** * Integer bounds and bin width of the lengths *)

(** With integer arguments below [2 ^ 52] and a positive step the values of
    [np.arange] are exact: they are the integers [start + i * step] below
    [stop]. *)
Lemma arange_integers (a b c : Z) (e : list Q) (x : Q) :
  0 < b -> Z.abs a < 2 ^ 52 -> Z.abs c < 2 ^ 52 ->
  np_arange (inject_Z a) (inject_Z c) (inject_Z b) = Ok e -> In x e ->
  exists i, 0 <= i /\ (x == inject_Z (a + i * b))%Q /\ a + i * b < c.
Proof.
  intros Hb Ha Hc He Hx. apply np_arange_Ok in He. destruct He as [ _ He ].
  assert (Hca : float64 (float64 (inject_Z c - inject_Z a) / inject_Z b)
                = float64 (inject_Z (c - a) / inject_Z b)).
  { apply float64_compat.
    assert (E : (inject_Z c - inject_Z a == inject_Z (c - a))%Q).
    { unfold Z.sub. rewrite inject_Z_plus, inject_Z_opp. reflexivity. }
    rewrite (float64_compat _ _ E), (float64_Z (c - a)) by lia. reflexivity. }
  rewrite Hca in He. subst e.
  apply in_map_iff in Hx. destruct Hx as (i & <- & Hi). apply in_seq in Hi.
  set (q := (inject_Z (c - a) / inject_Z b)%Q) in *.
  assert (Hbq : (0 < inject_Z b)%Q) by (change 0%Q with (inject_Z 0); now rewrite <- Zlt_Qlt).
  assert (Hq53 : (float64 q <= inject_Z (2 ^ 53 - 1))%Q).
  { rewrite <- (float64_Z (2 ^ 53 - 1)) by lia. apply float64_le.
    unfold q. apply Qle_shift_div_r; [ exact Hbq | ].
    rewrite <- inject_Z_mult, <- Zle_Qle. nia. }
  assert (Hi53 : Z.of_nat i < 2 ^ 53).
  { assert (Qceiling (float64 q) <= 2 ^ 53 - 1).
    { rewrite <- (Qceiling_Z (2 ^ 53 - 1)). now apply Qceiling_resp_le. }
    lia. }
  assert (Hiq : (inject_Z (Z.of_nat i) < q)%Q).
  { apply below_float64; [ lia | ]. apply below_ceiling. lia. }
  assert (Hlt : Z.of_nat i * b < c - a).
  { assert (H : (inject_Z (Z.of_nat i) * inject_Z b < q * inject_Z b)%Q)
      by (apply Qmult_lt_r; assumption).
    assert (Hqb : (q * inject_Z b == inject_Z (c - a))%Q).
    { unfold q. field. intro Hz. rewrite Hz in Hbq. apply (Qlt_irrefl 0 Hbq). }
    rewrite Hqb, <- inject_Z_mult, <- Zlt_Qlt in H. exact H. }
  exists (Z.of_nat i). split; [ lia | ]. split; [ | lia ].
  assert (Hfirst : (float64 (inject_Z a) == inject_Z a)%Q) by (apply float64_Z; lia).
  destruct i as [ | [ | i ] ]; cbn [arange_value].
  - rewrite Hfirst. now replace (a + Z.of_nat 0 * b) with a by lia.
  - rewrite <- inject_Z_plus, float64_Z by lia.
    now replace (a + Z.of_nat 1 * b) with (a + b) by lia.
  - set (j := Z.of_nat (S (S i))) in *.
    assert (Hj : 2 <= j) by (unfold j; lia).
    assert (Hnext : (float64 (inject_Z a + inject_Z b) == inject_Z (a + b))%Q).
    { rewrite <- inject_Z_plus. apply float64_Z. nia. }
    assert (Hdelta : (float64 (float64 (inject_Z a + inject_Z b) - float64 (inject_Z a))
                      == inject_Z b)%Q).
    { assert (E : (float64 (inject_Z a + inject_Z b) - float64 (inject_Z a)
                   == inject_Z b)%Q).
      { rewrite Hnext, Hfirst, inject_Z_plus. ring. }
      rewrite (float64_compat _ _ E). apply float64_Z. nia. }
    assert (Hprod : (float64 (inject_Z j
                       * float64 (float64 (inject_Z a + inject_Z b) - float64 (inject_Z a)))
                     == inject_Z (j * b))%Q).
    { assert (E : (inject_Z j
                   * float64 (float64 (inject_Z a + inject_Z b) - float64 (inject_Z a))
                   == inject_Z (j * b))%Q).
      { rewrite Hdelta, inject_Z_mult. reflexivity. }
      rewrite (float64_compat _ _ E). apply float64_Z. nia. }
    assert (E : (float64 (inject_Z a)
                 + float64 (inject_Z j
                    * float64 (float64 (inject_Z a + inject_Z b) - float64 (inject_Z a)))
                 == inject_Z (a + j * b))%Q).
    { rewrite Hprod, Hfirst, <- inject_Z_plus. reflexivity. }
    rewrite (float64_compat _ _ E). apply float64_Z. nia.
Qed.

(** X11.  With an integer minimum bound and a positive integer bin width
    (the defaults are 0 and 1000), both and all the lengths below [2 ^ 52]:
    without [xmax] the upper bound of the lengths is the length of the
    longest read, and the linear edges stop short of it: every counted
    length is strictly below the longest, so the longest reads are in no bin
    and the counts add up to less than the number of reads. *)
Theorem default_bound_leaves_out_longest_reads (self : pycoQC) (b a : Z)
    (h : histogram) (n : list Z)
    (Hb : 0 < b) (Ha : Z.abs a < 2 ^ 52)
    (Hlengths : forall x, In x (df self) ->
                  Z.abs (sequence_length_template (snd x)) < 2 ^ 52)
    (Hh : reads_len_distribution self (inject_Z b) false false (inject_Z a) None = Ok h)
    (Hn : hist_heights h = Counts n) :
  In (snd (xlim h)) (field_values Length self) /\
  (forall v, In v (field_values Length self) -> (v <= snd (xlim h))%Q) /\
  (forall v, in_bins_range (hist_bins h) v = true -> (v < snd (xlim h))%Q) /\
  sum_Z n < Z.of_nat (List.length (df self)).
Proof.
  unfold reads_len_distribution, resolve_xmax in Hh. cbn [truthy_xmax] in Hh.
  fold (field_values Length self) in Hh.
  destruct (py_max (field_values Length self)) as [ m | ] eqn:Hm; [ | discriminate ].
  cbn [bind] in Hh. unfold reads_len_bins in Hh.
  destruct (np_arange (inject_Z a) m (inject_Z b)) as [ e | ] eqn:He; [ | discriminate ].
  cbn [bind] in Hh.
  destruct (plot_hist (field_values Length self) (Linear e) false) as [ hh | ] eqn:Hp;
    [ | discriminate ].
  cbn [bind] in Hh. injection Hh as <-. cbn [hist_bins hist_heights xlim snd] in *.
  subst hh. apply plot_hist_counts in Hp. destruct Hp as [ Hc Hmono ].
  injection Hc as ->.
  assert (Hmc : exists c, m = inject_Z c /\ Z.abs c < 2 ^ 52).
  { pose proof (py_max_In _ _ Hm) as Hin. unfold field_values in Hin.
    apply in_map_iff in Hin. destruct Hin as (x & <- & Hx). eauto. }
  destruct Hmc as (c & -> & Hc).
  assert (Hbelow : forall v, in_bins_range (Linear e) v = true -> (v < inject_Z c)%Q).
  { intros v Hv. destruct (in_edge_range_Q _ _ Hv) as (x & y & _ & Hy & _ & Hvy).
    destruct (arange_integers a b c e y Hb Ha Hc He Hy) as (i & _ & Ey & Hlt).
    rewrite Zlt_Qlt in Hlt. lra. }
  split; [ now apply py_max_In | ]. split; [ now apply py_max_ge | ].
  split; [ exact Hbelow | ].
  destruct (counts_over_range (field_values Length self) (Linear e) Hmono) as [ Hsum _ ].
  change (sum_Z (counts_over (Linear e) (field_values Length self))
          < Z.of_nat (List.length (df self))).
  rewrite Hsum.
  replace (List.length (df self)) with (List.length (field_values Length self))
    by (unfold field_values; apply length_map).
  apply (count_if_lt _ _ (inject_Z c)); [ now apply py_max_In | ].
  destruct (in_bins_range (Linear e) (inject_Z c)) eqn:E; [ | reflexivity ].
  apply Hbelow in E. exfalso. apply (Qlt_irrefl _ E).
Qed.

Lemma default_bound_leaves_out_longest_reads_witness :
  sum_Z [ 0; 0; 0; 0 ] < Z.of_nat (List.length (df run_half_hour)).
Proof.
  assert (Hh : reads_len_distribution run_half_hour (inject_Z 1000) false false
                 (inject_Z 0) None
               = Ok (mk_histogram (Linear [ 0; 1000; 2000; 3000; 4000 ]%Q)
                                  (Counts [ 0; 0; 0; 0 ]) (0%Q, 4500%Q)))
    by (vm_compute; reflexivity).
  apply (default_bound_leaves_out_longest_reads run_half_hour 1000 0 _ [ 0; 0; 0; 0 ]
           ltac:(lia) ltac:(simpl; lia)
           ltac:(intros x Hx; simpl in Hx; destruct Hx as [ <- | [] ]; simpl; lia)
           Hh eq_refl).
Defined.

